(** * SentencingFHE: the encrypted case ledger, its decryption-oracle
      protocol and the per-judge accumulator

    A shallow embedding of [contracts/SentencingFHE.sol].  Storage is an
    explicit record that every external function threads through a small
    error monad; a reverted call leaves the storage as it was.  Unsigned
    256-bit integers are [Z] with Solidity 0.8's checked arithmetic
    written out, mappings are total functions with the zero default. *)

From Stdlib Require Import ZArith List String Bool Lia.
Import ListNotations.
Local Open Scope Z_scope.

(** ** Reverts and the error monad *)

(** One constructor per way a call can revert: the three [require]
    messages of the contract ("Already analyzed", "Invalid request",
    "Judge not found"), the revert raised inside [FHE.checkSignatures],
    a failing [abi.decode], the arithmetic panic of checked uint256
    arithmetic, gas exhaustion of a loop, and the revert raised inside
    [FHE.requestDecryption] for a malformed handle. *)
Inductive error : Type :=
| AlreadyAnalyzed
| InvalidRequest
| NotFound
| ProofInvalid
| DecodeError
| Overflow
| OutOfGas
| MalformedHandle.

Inductive result (A : Type) : Type :=
| Ok (a : A)
| Revert (e : error).
Arguments Ok {A} a.
Arguments Revert {A} e.

Definition bind {A B : Type} (m : result A) (k : A -> result B) : result B :=
  match m with
  | Ok a => k a
  | Revert e => Revert e
  end.

Notation "x <- m ;; k" := (bind m (fun x => k))
  (at level 61, m at next level, right associativity).

Definition require (b : bool) (e : error) : result unit :=
  if b then Ok tt else Revert e.

(** ** uint256 *)

Definition MAX_UINT256 : Z := 2 ^ 256 - 1.

(** [a + b] on uint256 under Solidity ^0.8: panics instead of wrapping. *)
Definition checked_add (a b : Z) : result Z :=
  if a + b <=? MAX_UINT256 then Ok (a + b) else Revert Overflow.

(** [for (uint256 i = lo; i <= hi; i++) body], the counter increment
    checked like every other addition. *)
Fixpoint for_loop {A : Type} (fuel : nat) (i hi : Z)
    (body : Z -> A -> result A) (acc : A) : result A :=
  if i <=? hi then
    match fuel with
    | O => Revert OutOfGas
    | S fuel' =>
        acc' <- body i acc ;;
        i' <- checked_add i 1 ;;
        for_loop fuel' i' hi body acc'
    end
  else Ok acc.

(** A loop over the indices of a memory array. *)
Fixpoint foldM {A B : Type} (f : B -> A -> result A) (l : list B) (acc : A)
    : result A :=
  match l with
  | [] => Ok acc
  | x :: l' => acc' <- f x acc ;; foldM f l' acc'
  end.

(** [a[i] = v] on a memory array; the index is in range wherever the
    contract writes. *)
Fixpoint array_set {A : Type} (a : list A) (i : nat) (v : A) : list A :=
  match a, i with
  | [], _ => []
  | _ :: a', O => v :: a'
  | x :: a', S i' => x :: array_set a' i' v
  end.

(** ** The FHE capability interface *)

(** Modelled from the spec: the [@fhevm/solidity] library is an external
    collaborator.  A handle is either the zero (uninitialized) handle or
    an opaque ciphertext, represented by the plaintext only the oracle can
    read; homomorphic [add] is integer addition on the plaintexts and
    treats an uninitialized operand as an encryption of zero. *)
Module FHE.

Inductive euint32 : Type :=
| Uninitialized
| Ciphertext (plain : Z).

Definition isInitialized (h : euint32) : bool :=
  match h with
  | Uninitialized => false
  | Ciphertext _ => true
  end.

Definition asEuint32 (v : Z) : euint32 := Ciphertext v.

Definition decrypt (h : euint32) : Z :=
  match h with
  | Uninitialized => 0
  | Ciphertext v => v
  end.

Definition add (a b : euint32) : euint32 := Ciphertext (decrypt a + decrypt b).

Definition bytes32 : Type := euint32.
Definition toBytes32 (h : euint32) : bytes32 := h.

End FHE.
Import FHE.

(** ** Storage *)

Record EncryptedCase : Type := mkEncryptedCase {
  id : Z;
  encryptedCharge : euint32;
  encryptedSentence : euint32;
  encryptedJudgeId : euint32;
  timestamp : Z
}.

Record DecryptedCase : Type := mkDecryptedCase {
  charge : string;
  sentence : Z;
  judgeId : string;
  isAnalyzed : bool
}.

Definition zeroEncryptedCase : EncryptedCase :=
  mkEncryptedCase 0 Uninitialized Uninitialized Uninitialized 0.

Definition zeroDecryptedCase : DecryptedCase :=
  mkDecryptedCase EmptyString 0 EmptyString false.

Inductive event : Type :=
| CaseSubmitted (caseId time : Z)
| AnalysisRequested (caseId : Z)
| CaseAnalyzed (caseId : Z).

Inductive selector : Type :=
| analyzeCase_selector
| decryptJudgeStats_selector.

(** The contract's storage, followed by the two pieces of the outside
    world a call can change: the oracle's request counter with the
    requests it has received, and the event log. *)
Record state : Type := mkState {
  caseCount : Z;
  encryptedCases : Z -> EncryptedCase;
  decryptedCases : Z -> DecryptedCase;
  encryptedJudgeStats : string -> euint32;
  judgeList : list string;
  requestToCaseId : Z -> Z;
  counterRequest : Z;
  decryptionRequests : list (Z * list bytes32 * selector);
  events : list event
}.

Definition upd {V : Type} (m : Z -> V) (k : Z) (v : V) : Z -> V :=
  fun k' => if k' =? k then v else m k'.

Definition upd_str {V : Type} (m : string -> V) (k : string) (v : V)
    : string -> V :=
  fun k' => if String.eqb k' k then v else m k'.

Definition init : state :=
  mkState 0 (fun _ => zeroEncryptedCase) (fun _ => zeroDecryptedCase)
    (fun _ => Uninitialized) [] (fun _ => 0) 0 [] [].

Definition set_decryptedCase (s : state) (k : Z) (d : DecryptedCase) : state :=
  mkState (caseCount s) (encryptedCases s) (upd (decryptedCases s) k d)
    (encryptedJudgeStats s) (judgeList s) (requestToCaseId s)
    (counterRequest s) (decryptionRequests s) (events s).

Definition set_judgeStats (s : state) (j : string) (h : euint32) : state :=
  mkState (caseCount s) (encryptedCases s) (decryptedCases s)
    (upd_str (encryptedJudgeStats s) j h) (judgeList s) (requestToCaseId s)
    (counterRequest s) (decryptionRequests s) (events s).

Definition push_judge (s : state) (j : string) : state :=
  mkState (caseCount s) (encryptedCases s) (decryptedCases s)
    (encryptedJudgeStats s) (judgeList s ++ [j]) (requestToCaseId s)
    (counterRequest s) (decryptionRequests s) (events s).

Definition set_requestToCaseId (s : state) (r : Z) (v : Z) : state :=
  mkState (caseCount s) (encryptedCases s) (decryptedCases s)
    (encryptedJudgeStats s) (judgeList s) (upd (requestToCaseId s) r v)
    (counterRequest s) (decryptionRequests s) (events s).

Definition emit (s : state) (e : event) : state :=
  mkState (caseCount s) (encryptedCases s) (decryptedCases s)
    (encryptedJudgeStats s) (judgeList s) (requestToCaseId s)
    (counterRequest s) (decryptionRequests s) (events s ++ [e]).

(** Modelled from the spec: [FHE.requestDecryption] hands the handles to
    the oracle and returns an opaque request identifier that the oracle
    never issues twice.  It fails only for malformed handles: the zero
    handle, which names no ciphertext, is refused. *)
Definition requestDecryption (s : state) (cts : list bytes32) (sel : selector)
    : result (Z * state) :=
  if forallb isInitialized cts then
    Ok (counterRequest s,
        mkState (caseCount s) (encryptedCases s) (decryptedCases s)
          (encryptedJudgeStats s) (judgeList s) (requestToCaseId s)
          (counterRequest s + 1)
          (decryptionRequests s ++ [(counterRequest s, cts, sel)]) (events s))
  else Revert MalformedHandle.

(** ** The contract *)

(** What the contract takes from its environment: the byte strings the
    oracle delivers, the signature check of the FHE library, the two
    [abi.decode] instances and [uint256(keccak256(abi.encodePacked(.)))]
    on strings. *)
Class Oracle : Type := {
  bytes : Type;
  checkSignatures : Z -> bytes -> bytes -> bool;
  abi_decode_case : bytes -> option (string * Z * string);
  abi_decode_uint32 : bytes -> option Z;
  keccak256 : string -> Z
}.

Section Contract.

Context {oracle : Oracle}.

Definition bytes32ToUint (b : Z) : Z := b.

Definition submitEncryptedCase (s : state) (now : Z)
    (eCharge eSentence eJudgeId : euint32) : result state :=
  newId <- checked_add (caseCount s) 1 ;;
  let s1 :=
    mkState newId
      (upd (encryptedCases s) newId
         (mkEncryptedCase newId eCharge eSentence eJudgeId now))
      (upd (decryptedCases s) newId
         (mkDecryptedCase EmptyString 0 EmptyString false))
      (encryptedJudgeStats s) (judgeList s) (requestToCaseId s)
      (counterRequest s) (decryptionRequests s) (events s) in
  Ok (emit s1 (CaseSubmitted newId now)).

Definition requestSentencingAnalysis (s : state) (caseId : Z) : result state :=
  let c := encryptedCases s caseId in
  _ <- require (negb (isAnalyzed (decryptedCases s caseId))) AlreadyAnalyzed ;;
  let ciphertexts :=
    [toBytes32 (encryptedCharge c); toBytes32 (encryptedSentence c);
     toBytes32 (encryptedJudgeId c)] in
  r <- requestDecryption s ciphertexts analyzeCase_selector ;;
  let '(reqId, s1) := r in
  let s2 := set_requestToCaseId s1 reqId caseId in
  Ok (emit s2 (AnalysisRequested caseId)).

Definition analyzeCase (s : state) (requestId : Z) (cleartexts proof : bytes)
    : result state :=
  let caseId := requestToCaseId s requestId in
  _ <- require (negb (caseId =? 0)) InvalidRequest ;;
  let dCase := decryptedCases s caseId in
  _ <- require (negb (isAnalyzed dCase)) AlreadyAnalyzed ;;
  _ <- require (checkSignatures requestId cleartexts proof) ProofInvalid ;;
  match abi_decode_case cleartexts with
  | None => Revert DecodeError
  | Some (charge', sentence', judgeId') =>
      let s1 :=
        set_decryptedCase s caseId
          (mkDecryptedCase charge' sentence' judgeId' true) in
      let j := judgeId (decryptedCases s1 caseId) in
      let s2 :=
        if negb (isInitialized (encryptedJudgeStats s1 j))
        then push_judge (set_judgeStats s1 j (asEuint32 0)) j
        else s1 in
      let s3 :=
        set_judgeStats s2 j (add (encryptedJudgeStats s2 j) (asEuint32 1)) in
      Ok (emit s3 (CaseAnalyzed caseId))
  end.

Definition getDecryptedCase (s : state) (caseId : Z)
    : string * Z * string * bool :=
  let c := decryptedCases s caseId in
  (charge c, sentence c, judgeId c, isAnalyzed c).

Definition getEncryptedJudgeStats (s : state) (j : string) : euint32 :=
  encryptedJudgeStats s j.

Definition requestJudgeStatsDecryption (s : state) (j : string) : result state :=
  let stats := encryptedJudgeStats s j in
  _ <- require (isInitialized stats) NotFound ;;
  let ciphertexts := [toBytes32 stats] in
  r <- requestDecryption s ciphertexts decryptJudgeStats_selector ;;
  let '(reqId, s1) := r in
  Ok (set_requestToCaseId s1 reqId (bytes32ToUint (keccak256 j))).

Fixpoint judgeFromHash (l : list string) (hash : Z) : result string :=
  match l with
  | [] => Revert NotFound
  | j :: l' =>
      if bytes32ToUint (keccak256 j) =? hash then Ok j
      else judgeFromHash l' hash
  end.

Definition getJudgeFromHash (s : state) (hash : Z) : result string :=
  judgeFromHash (judgeList s) hash.

(** The callback has no [returns] clause and its body ends with the
    declaration of the local [stats]: the storage it hands back is the
    storage it was given. *)
Definition decryptJudgeStats (s : state) (requestId : Z)
    (cleartexts proof : bytes) : result state :=
  let judgeHash := requestToCaseId s requestId in
  j <- getJudgeFromHash s judgeHash ;;
  _ <- require (checkSignatures requestId cleartexts proof) ProofInvalid ;;
  match abi_decode_uint32 cleartexts with
  | None => Revert DecodeError
  | Some stats => Ok s
  end.

Definition same_string (a b : string) : bool := keccak256 a =? keccak256 b.

Definition stats_body (s : state) (chargeType : string) (i : Z)
    (acc : Z * Z * Z * Z) : result (Z * Z * Z * Z) :=
  let '(total, count, minSentence, maxSentence) := acc in
  let d := decryptedCases s i in
  if isAnalyzed d && same_string (charge d) chargeType then
    total' <- checked_add total (sentence d) ;;
    count' <- checked_add count 1 ;;
    let minSentence' :=
      if sentence d <? minSentence then sentence d else minSentence in
    let maxSentence' :=
      if sentence d >? maxSentence then sentence d else maxSentence in
    Ok (total', count', minSentence', maxSentence')
  else Ok acc.

Definition calculateSentencingStats (s : state) (chargeType : string)
    : result (Z * Z * Z) :=
  r <- for_loop (Z.to_nat (caseCount s)) 1 (caseCount s)
         (stats_body s chargeType) (0, 0, MAX_UINT256, 0) ;;
  let '(total, count, minSentence, maxSentence) := r in
  let avgSentence := if count >? 0 then total / count else 0 in
  Ok (avgSentence, minSentence, maxSentence).

Definition disparity_body (s : state) (chargeType j : string) (k : Z)
    (acc : Z * Z) : result (Z * Z) :=
  let '(total, count) := acc in
  let d := decryptedCases s k in
  if isAnalyzed d && same_string (charge d) chargeType
     && same_string (judgeId d) j then
    total' <- checked_add total (sentence d) ;;
    count' <- checked_add count 1 ;;
    Ok (total', count')
  else Ok acc.

Definition disparity_outer (s : state) (chargeType : string)
    (judgeIds : list string) (i : nat) (acc : list string * list Z)
    : result (list string * list Z) :=
  let '(judges, avgSentences) := acc in
  let j := nth i judgeIds EmptyString in
  r <- for_loop (Z.to_nat (caseCount s)) 1 (caseCount s)
         (disparity_body s chargeType j) (0, 0) ;;
  let '(total, count) := r in
  let judges' := array_set judges i j in
  let avgSentences' :=
    array_set avgSentences i (if count >? 0 then total / count else 0) in
  Ok (judges', avgSentences').

Definition detectSentencingDisparities (s : state) (chargeType : string)
    (judgeIds : list string) : result (list string * list Z) :=
  let n := List.length judgeIds in
  foldM (disparity_outer s chargeType judgeIds) (seq 0 n)
    (repeat EmptyString n, repeat 0 n).

(** ** Transactions and reachable states *)

Inductive call : Type :=
| SubmitEncryptedCase (now : Z) (eCharge eSentence eJudgeId : euint32)
| RequestSentencingAnalysis (caseId : Z)
| AnalyzeCase (requestId : Z) (cleartexts proof : bytes)
| RequestJudgeStatsDecryption (j : string)
| DecryptJudgeStats (requestId : Z) (cleartexts proof : bytes).

Definition exec (s : state) (c : call) : result state :=
  match c with
  | SubmitEncryptedCase now a b d => submitEncryptedCase s now a b d
  | RequestSentencingAnalysis caseId => requestSentencingAnalysis s caseId
  | AnalyzeCase r ct pf => analyzeCase s r ct pf
  | RequestJudgeStatsDecryption j => requestJudgeStatsDecryption s j
  | DecryptJudgeStats r ct pf => decryptJudgeStats s r ct pf
  end.

(** A transaction commits the storage of a successful call and rolls a
    reverted one back. *)
Definition step (s : state) (c : call) : state :=
  match exec s c with
  | Ok s' => s'
  | Revert _ => s
  end.

Definition run (s : state) (cs : list call) : state := fold_left step cs s.

Definition reachable (s : state) : Prop := exists cs, s = run init cs.

End Contract.

(** ** Specification-level notions *)

Fixpoint Zseq (i : Z) (n : nat) : list Z :=
  match n with
  | O => []
  | S n' => i :: Zseq (i + 1) n'
  end.

(** The identifiers [submitEncryptedCase] has assigned: 1 .. caseCount. *)
Definition caseIds (s : state) : list Z := Zseq 1 (Z.to_nat (caseCount s)).

Definition sum_list (l : list Z) : Z := fold_right Z.add 0 l.

(** Number of case records that have reached the Analyzed state. *)
Definition analyzedCount (s : state) : Z :=
  Z.of_nat
    (List.length (filter (fun k => isAnalyzed (decryptedCases s k)) (caseIds s))).

(** Sum, over the judges the contract knows, of the decrypted
    accumulators. *)
Definition judgeStatsTotal (s : state) : Z :=
  sum_list (map (fun j => decrypt (encryptedJudgeStats s j)) (judgeList s)).

(** Case [k] is analyzed and its charge is [chargeType] (exact,
    case-sensitive string equality). *)
Definition matches (s : state) (chargeType : string) (k : Z) : bool :=
  isAnalyzed (decryptedCases s k)
  && String.eqb (charge (decryptedCases s k)) chargeType.

(** The sentences of the matching cases, in ledger order. *)
Definition matching (s : state) (chargeType : string) : list Z :=
  map (fun k => sentence (decryptedCases s k))
    (filter (matches s chargeType) (caseIds s)).

(** The same, restricted to the cases that cite judge [j]. *)
Definition matchesJudge (s : state) (chargeType j : string) (k : Z) : bool :=
  isAnalyzed (decryptedCases s k)
  && String.eqb (charge (decryptedCases s k)) chargeType
  && String.eqb (judgeId (decryptedCases s k)) j.

Definition matchingJudge (s : state) (chargeType j : string) : list Z :=
  map (fun k => sentence (decryptedCases s k))
    (filter (matchesJudge s chargeType j) (caseIds s)).

(** floor(sum / count), and 0 for no sentence at all. *)
Definition average (l : list Z) : Z :=
  match l with
  | [] => 0
  | _ => sum_list l / Z.of_nat (List.length l)
  end.

(** [m] is the least (greatest) element of [l]. *)
Definition is_min (m : Z) (l : list Z) : Prop :=
  In m l /\ forall x, In x l -> m <= x.

Definition is_max (m : Z) (l : list Z) : Prop :=
  In m l /\ forall x, In x l -> x <= m.

(** The values a call to [calculateSentencingStats] hands back, in the
    order of its [returns] clause. *)
Definition return_data (r : Z * Z * Z) : list Z :=
  let '(avgSentence, minSentence, maxSentence) := r in
  [avgSentence; minSentence; maxSentence].

Section History.

Context {oracle : Oracle}.

(** The judge a call cites when it finalizes a case as Analyzed. *)
Definition finalizedBy (s : state) (c : call) : list string :=
  match c with
  | AnalyzeCase r ct pf =>
      match analyzeCase s r ct pf, abi_decode_case ct with
      | Ok _, Some (_, _, j) => [j]
      | _, _ => []
      end
  | _ => []
  end.

(** The judges cited by the finalized cases of a trace, oldest first. *)
Fixpoint finalizedJudges (s : state) (cs : list call) : list string :=
  match cs with
  | [] => []
  | c :: cs' => (finalizedBy s c ++ finalizedJudges (step s c) cs')%list
  end.

(** The call finalizes no case, or one that has been submitted. *)
Definition finalizesSubmitted (s : state) (c : call) : Prop :=
  match c with
  | AnalyzeCase r ct pf =>
      forall s', analyzeCase s r ct pf = Ok s' ->
                 1 <= requestToCaseId s r <= caseCount s
  | _ => True
  end.

(** Every callback of the trace that finalizes a case finalizes one that
    had been submitted by then. *)
Fixpoint submittedOnly (s : state) (cs : list call) : Prop :=
  match cs with
  | [] => True
  | c :: cs' => finalizesSubmitted s c /\ submittedOnly (step s c) cs'
  end.



(** The facts every reachable storage satisfies. *)
Record wf (s : state) : Prop := mk_wf {
  wf_caseCount : 0 <= caseCount s <= MAX_UINT256;
  wf_unanalyzed :
    forall k, isAnalyzed (decryptedCases s k) = false ->
              decryptedCases s k = zeroDecryptedCase;
  wf_sentence : forall k, 0 <= sentence (decryptedCases s k) <= MAX_UINT256;
  wf_judges :
    forall j, In j (judgeList s) <->
              isInitialized (encryptedJudgeStats s j) = true;
  wf_nodup : NoDup (judgeList s);
  wf_pending : forall r, requestToCaseId s r <> 0 -> 0 <= r < counterRequest s;
  wf_counter : 0 <= counterRequest s
}.

(** What every reachable storage records about the requests sent to
    the oracle: an identifier outside 1 .. caseCount holds the all-zero
    record, the oracle has issued only identifiers below its counter, and
    a request sent for the [analyzeCase] selector targets a submitted
    case. *)
Record wf_requests (s : state) : Prop := mk_wf_requests {
  wf_zero_record :
    forall k, k < 1 \/ caseCount s < k ->
              encryptedCases s k = zeroEncryptedCase;
  wf_issued :
    forall r cts sel, In (r, cts, sel) (decryptionRequests s) ->
                      r < counterRequest s;
  wf_target :
    forall r cts, In (r, cts, analyzeCase_selector) (decryptionRequests s) ->
                  1 <= requestToCaseId s r <= caseCount s
}.

(** The accumulators against the history [h] of finalized cases: an
    accumulator exists exactly for the judges cited, it holds the number
    of citations, and the accumulators add up to the number of finalized
    cases. *)
Definition accumulators_agree (s : state) (h : list string) : Prop :=
  (forall j, isInitialized (encryptedJudgeStats s j) = true <-> In j h) /\
  (forall j, decrypt (encryptedJudgeStats s j)
             = Z.of_nat (count_occ string_dec h j)) /\
  judgeStatsTotal s = Z.of_nat (List.length h).

End History.

(** ** A concrete oracle *)

(** An oracle whose byte strings are the values they decode to and whose
    proofs say whether they verify; strings are hashed by an injective
    code placed above 2^255, away from the case identifiers of the
    scenarios below.  A case triple read as a [uint32] gives the first
    word of its encoding, the offset 0x60 of the first string. *)
Module Mock.

Inductive payload : Type :=
| CasePlain (charge : string) (sentence : Z) (judgeId : string)
| CountPlain (count : Z)
| Signature (valid : bool).

Fixpoint str_code (s : string) : Z :=
  match s with
  | EmptyString => 1
  | String a s' => Z.of_N (Ascii.N_of_ascii a) + 256 * str_code s'
  end.

Definition oracle : Oracle := {|
  bytes := payload;
  checkSignatures := fun _ _ pf =>
    match pf with
    | Signature valid => valid
    | _ => false
    end;
  abi_decode_case := fun ct =>
    match ct with
    | CasePlain c n j =>
        if (0 <=? n) && (n <=? MAX_UINT256) then Some (c, n, j) else None
    | _ => None
    end;
  abi_decode_uint32 := fun ct =>
    match ct with
    | CountPlain n =>
        if (0 <=? n) && (n <? 2 ^ 32) then Some n else None
    | CasePlain _ _ _ => Some 96
    | Signature _ => None
    end;
  keccak256 := fun s => 2 ^ 255 + str_code s
|}.

Definition h (v : Z) : euint32 := Ciphertext v.

(** Three cases submitted and sent for analysis (requests 0, 1, 2). *)
Definition pending_trace : list (@call oracle) :=
  [ SubmitEncryptedCase 100 (h 1) (h 10) (h 7);
    SubmitEncryptedCase 101 (h 1) (h 20) (h 7);
    SubmitEncryptedCase 102 (h 1) (h 30) (h 8);
    RequestSentencingAnalysis 1;
    RequestSentencingAnalysis 2;
    RequestSentencingAnalysis 3 ].

Definition pending_state : state := run (oracle := oracle) init pending_trace.

(** The three cases finalized as Theft cases with sentences 10, 20, 30
    for judges A, A, B. *)
Definition theft_trace : list (@call oracle) :=
  (pending_trace
   ++ [ @AnalyzeCase oracle 0 (CasePlain "Theft" 10 "A") (Signature true);
        @AnalyzeCase oracle 1 (CasePlain "Theft" 20 "A") (Signature true);
        @AnalyzeCase oracle 2 (CasePlain "Theft" 30 "B") (Signature true) ])%list.

Definition theft_state : state := run (oracle := oracle) init theft_trace.

(** Two finalized cases whose sentences add up to 2^256. *)
Definition overflow_trace : list (@call oracle) :=
  (pending_trace
   ++ [ @AnalyzeCase oracle 0 (CasePlain "Theft" (2 ^ 255) "A") (Signature true);
        @AnalyzeCase oracle 1 (CasePlain "Theft" (2 ^ 255) "A") (Signature true) ])%list.

Definition overflow_state : state := run (oracle := oracle) init overflow_trace.

(** An analysis request and a callback for case 1 of an empty ledger. *)
Definition unsubmitted_trace : list (@call oracle) :=
  [ RequestSentencingAnalysis 1;
    @AnalyzeCase oracle 0 (CasePlain "Theft" 10 "A") (Signature true) ].

(** The theft ledger after judge A's accumulator was sent for
    decryption (request 3). *)
Definition stats_requested_state : state :=
  step (oracle := oracle) theft_state (RequestJudgeStatsDecryption "A").

End Mock.

(** ** Event log and judge index *)

(** The case identifiers announced by the CaseSubmitted events of a
    log, oldest first. *)
Definition submittedIds (evs : list event) : list Z :=
  flat_map (fun e => match e with CaseSubmitted k _ => [k] | _ => [] end) evs.

(** The case identifiers announced by its CaseAnalyzed events. *)
Definition analyzedIds (evs : list event) : list Z :=
  flat_map (fun e => match e with CaseAnalyzed k => [k] | _ => [] end) evs.

(** The distinct elements of a list in the order of their first
    occurrence. *)
Definition firstSeen (l : list string) : list string :=
  fold_left
    (fun acc j => if in_dec string_dec j acc then acc else (acc ++ [j])%list)
    l [].

(** * Properties *)

(** ** Mappings, arithmetic and loops *)

Lemma upd_same {V : Type} (m : Z -> V) (k : Z) (v : V) : upd m k v k = v.
Proof. unfold upd. now rewrite Z.eqb_refl. Qed.

Lemma upd_other {V : Type} (m : Z -> V) (k k' : Z) (v : V) :
  k' <> k -> upd m k v k' = m k'.
Proof.
  intros Hne. unfold upd. destruct (Z.eqb_spec k' k); [contradiction | reflexivity].
Qed.

Lemma upd_str_same {V : Type} (m : string -> V) (k : string) (v : V) :
  upd_str m k v k = v.
Proof. unfold upd_str. now rewrite String.eqb_refl. Qed.

Lemma upd_str_other {V : Type} (m : string -> V) (k k' : string) (v : V) :
  k' <> k -> upd_str m k v k' = m k'.
Proof.
  intros Hne. unfold upd_str.
  destruct (String.eqb_spec k' k); [contradiction | reflexivity].
Qed.

Lemma MAX_UINT256_pos : 0 < MAX_UINT256.
Proof. reflexivity. Qed.

Lemma checked_add_ok (a b : Z) :
  a + b <= MAX_UINT256 -> checked_add a b = Ok (a + b).
Proof.
  intros Hle. unfold checked_add.
  destruct (Z.leb_spec (a + b) MAX_UINT256); [reflexivity | lia].
Qed.

Lemma checked_add_inv (a b c : Z) :
  checked_add a b = Ok c -> c = a + b /\ a + b <= MAX_UINT256.
Proof.
  unfold checked_add.
  destruct (Z.leb_spec (a + b) MAX_UINT256); intros Heq; inversion Heq.
  split; [reflexivity | assumption].
Qed.

(** With the bound below the top of the range the counter never
    overflows, and the loop visits lo, lo+1, .., hi in turn. *)
Lemma for_loop_Zseq {A : Type} (body : Z -> A -> result A) (hi : Z) :
  hi < MAX_UINT256 ->
  forall (fuel : nat) (i : Z) (acc : A),
    i + Z.of_nat fuel = hi + 1 ->
    for_loop fuel i hi body acc = foldM body (Zseq i fuel) acc.
Proof.
  intros Hhi fuel. induction fuel as [|fuel IH]; intros i acc Hlen.
  - simpl. destruct (Z.leb_spec i hi); [lia | reflexivity].
  - cbn [for_loop Zseq foldM].
    destruct (Z.leb_spec i hi); [|lia].
    destruct (body i acc) as [acc'|e]; [|reflexivity].
    cbn [bind]. rewrite checked_add_ok by lia. cbn [bind].
    apply IH. lia.
Qed.

Lemma Zseq_length (n : nat) (i : Z) : List.length (Zseq i n) = n.
Proof. revert i. induction n as [|n IH]; intros i; simpl; [|rewrite IH]; reflexivity. Qed.

Lemma Zseq_In (n : nat) (i k : Z) :
  In k (Zseq i n) <-> i <= k < i + Z.of_nat n.
Proof.
  revert i. induction n as [|n IH]; intros i.
  - simpl. lia.
  - cbn [Zseq In]. rewrite IH. lia.
Qed.

Lemma array_set_middle {A : Type} (pre post : list A) (x v : A) :
  array_set (pre ++ x :: post) (List.length pre) v = (pre ++ v :: post)%list.
Proof.
  induction pre as [|y pre IH]; simpl; [reflexivity | now rewrite IH].
Qed.

Lemma sum_list_app (l1 l2 : list Z) :
  sum_list (l1 ++ l2) = sum_list l1 + sum_list l2.
Proof.
  unfold sum_list. induction l1 as [|x l1 IH]; simpl; [reflexivity | lia].
Qed.

Lemma sum_list_cons (x : Z) (l : list Z) : sum_list (x :: l) = x + sum_list l.
Proof. reflexivity. Qed.

Lemma sum_list_nonneg (l : list Z) :
  (forall x, In x l -> 0 <= x) -> 0 <= sum_list l.
Proof.
  unfold sum_list. induction l as [|x l IH]; intros Hpos; simpl; [lia|].
  assert (0 <= x) by (apply Hpos; now left).
  assert (0 <= fold_right Z.add 0 l) by (apply IH; intros y Hy; apply Hpos; now right).
  lia.
Qed.

(** ** What a successful call changes *)

Section Effects.

Context {oracle : Oracle}.

Lemma submitEncryptedCase_inv (s s' : state) (now : Z) (a b c : euint32) :
  submitEncryptedCase s now a b c = Ok s' ->
  caseCount s + 1 <= MAX_UINT256 /\
  caseCount s' = caseCount s + 1 /\
  (forall k, decryptedCases s' k
             = upd (decryptedCases s) (caseCount s + 1) zeroDecryptedCase k) /\
  encryptedJudgeStats s' = encryptedJudgeStats s /\
  judgeList s' = judgeList s /\
  requestToCaseId s' = requestToCaseId s /\
  counterRequest s' = counterRequest s.
Proof.
  unfold submitEncryptedCase.
  destruct (checked_add (caseCount s) 1) as [n|e] eqn:Hadd; [|discriminate].
  apply checked_add_inv in Hadd as [-> Hle].
  cbn [bind]. intros Heq. inversion Heq; subst s'; clear Heq.
  cbn. repeat split; auto.
Qed.

Lemma requestSentencingAnalysis_inv (s s' : state) (caseId : Z) :
  requestSentencingAnalysis s caseId = Ok s' ->
  isAnalyzed (decryptedCases s caseId) = false /\
  caseCount s' = caseCount s /\
  decryptedCases s' = decryptedCases s /\
  encryptedJudgeStats s' = encryptedJudgeStats s /\
  judgeList s' = judgeList s /\
  (forall r, requestToCaseId s' r
             = upd (requestToCaseId s) (counterRequest s) caseId r) /\
  counterRequest s' = counterRequest s + 1.
Proof.
  unfold requestSentencingAnalysis.
  destruct (isAnalyzed (decryptedCases s caseId)); [discriminate|].
  cbn [negb require bind]. unfold requestDecryption.
  destruct (forallb isInitialized _); [|discriminate].
  cbn. intros Heq. inversion Heq; subst s'; clear Heq.
  cbn. repeat split; auto.
Qed.

(** A successful request sent the three handles stored under [caseId],
    all of them initialized, and the oracle logged it for the
    [analyzeCase] selector. *)
Lemma requestSentencingAnalysis_handles (s s' : state) (caseId : Z) :
  requestSentencingAnalysis s caseId = Ok s' ->
  isInitialized (encryptedCharge (encryptedCases s caseId)) = true /\
  isInitialized (encryptedSentence (encryptedCases s caseId)) = true /\
  isInitialized (encryptedJudgeId (encryptedCases s caseId)) = true /\
  decryptionRequests s'
  = (decryptionRequests s
     ++ [(counterRequest s,
          [toBytes32 (encryptedCharge (encryptedCases s caseId));
           toBytes32 (encryptedSentence (encryptedCases s caseId));
           toBytes32 (encryptedJudgeId (encryptedCases s caseId))],
          analyzeCase_selector)])%list.
Proof.
  unfold requestSentencingAnalysis.
  destruct (isAnalyzed (decryptedCases s caseId)); [discriminate|].
  cbn [negb require bind]. unfold requestDecryption, toBytes32.
  cbn [forallb].
  destruct (isInitialized (encryptedCharge (encryptedCases s caseId)));
    [|discriminate].
  destruct (isInitialized (encryptedSentence (encryptedCases s caseId)));
    [|discriminate].
  destruct (isInitialized (encryptedJudgeId (encryptedCases s caseId)));
    [|discriminate].
  cbn. intros Heq. inversion Heq; subst s'; clear Heq.
  cbn. repeat split; auto.
Qed.

(** Under an identifier whose record holds no ciphertext the call goes
    past its own check and is refused by the library. *)
Lemma requestSentencingAnalysis_zero_record (s : state) (caseId : Z) :
  encryptedCases s caseId = zeroEncryptedCase ->
  requestSentencingAnalysis s caseId
  = (if isAnalyzed (decryptedCases s caseId) then Revert AlreadyAnalyzed
     else Revert MalformedHandle).
Proof.
  intros Hz. unfold requestSentencingAnalysis. rewrite Hz.
  now destruct (isAnalyzed (decryptedCases s caseId)).
Qed.

Lemma analyzeCase_inv (s s' : state) (r : Z) (ct pf : bytes) :
  analyzeCase s r ct pf = Ok s' ->
  exists c n j,
    requestToCaseId s r <> 0 /\
    isAnalyzed (decryptedCases s (requestToCaseId s r)) = false /\
    checkSignatures r ct pf = true /\
    abi_decode_case ct = Some (c, n, j) /\
    caseCount s' = caseCount s /\
    (forall k, decryptedCases s' k
               = upd (decryptedCases s) (requestToCaseId s r)
                   (mkDecryptedCase c n j true) k) /\
    (forall j', encryptedJudgeStats s' j'
                = upd_str (encryptedJudgeStats s) j
                    (Ciphertext (decrypt (encryptedJudgeStats s j) + 1)) j') /\
    judgeList s'
      = (if isInitialized (encryptedJudgeStats s j) then judgeList s
         else judgeList s ++ [j])%list /\
    requestToCaseId s' = requestToCaseId s /\
    counterRequest s' = counterRequest s.
Proof.
  unfold analyzeCase.
  destruct (Z.eqb_spec (requestToCaseId s r) 0) as [|Hne]; [discriminate|].
  cbn [negb require bind].
  destruct (isAnalyzed (decryptedCases s (requestToCaseId s r))) eqn:Han;
    [discriminate|].
  cbn [negb require bind].
  destruct (checkSignatures r ct pf) eqn:Hsig; [|discriminate].
  cbn [require bind].
  destruct (abi_decode_case ct) as [[[c n] j]|] eqn:Hdec; [|discriminate].
  intros Heq. inversion Heq; subst s'; clear Heq.
  exists c, n, j.
  cbn. rewrite upd_same. cbn.
  destruct (encryptedJudgeStats s j) as [|v] eqn:Hj; cbn.
  - repeat split; auto.
    intros j'. unfold upd_str.
    destruct (String.eqb_spec j' j); [now rewrite String.eqb_refl | reflexivity].
  - repeat split; auto.
    intros j'. unfold upd_str.
    destruct (String.eqb_spec j' j); [now rewrite Hj | reflexivity].
Qed.

Lemma requestJudgeStatsDecryption_inv (s s' : state) (j : string) :
  requestJudgeStatsDecryption s j = Ok s' ->
  isInitialized (encryptedJudgeStats s j) = true /\
  caseCount s' = caseCount s /\
  decryptedCases s' = decryptedCases s /\
  encryptedJudgeStats s' = encryptedJudgeStats s /\
  judgeList s' = judgeList s /\
  (forall r, requestToCaseId s' r
             = upd (requestToCaseId s) (counterRequest s)
                 (bytes32ToUint (keccak256 j)) r) /\
  counterRequest s' = counterRequest s + 1 /\
  decryptionRequests s'
    = (decryptionRequests s
       ++ [(counterRequest s, [toBytes32 (encryptedJudgeStats s j)],
            decryptJudgeStats_selector)])%list.
Proof.
  unfold requestJudgeStatsDecryption.
  destruct (isInitialized (encryptedJudgeStats s j)) eqn:Hin; [|discriminate].
  cbn [require bind]. unfold requestDecryption, toBytes32.
  cbn [forallb]. rewrite Hin.
  cbn. intros Heq. inversion Heq; subst s'; clear Heq.
  cbn. repeat split; auto.
Qed.

Lemma decryptJudgeStats_inv (s s' : state) (r : Z) (ct pf : bytes) :
  decryptJudgeStats s r ct pf = Ok s' -> s' = s.
Proof.
  unfold decryptJudgeStats.
  destruct (getJudgeFromHash s (requestToCaseId s r)); [|discriminate].
  cbn [bind]. destruct (checkSignatures r ct pf); [|discriminate].
  cbn [require bind]. destruct (abi_decode_uint32 ct); [|discriminate].
  intros Heq. now inversion Heq.
Qed.

(** What a successful call does to the encrypted records, the event log
    and the requests sent to the oracle. *)
Lemma exec_log (s s' : state) (c : call) :
  exec s c = Ok s' ->
  match c with
  | SubmitEncryptedCase now a b d =>
      (forall k, encryptedCases s' k
                 = upd (encryptedCases s) (caseCount s + 1)
                     (mkEncryptedCase (caseCount s + 1) a b d now) k) /\
      events s' = (events s ++ [CaseSubmitted (caseCount s + 1) now])%list /\
      decryptionRequests s' = decryptionRequests s
  | RequestSentencingAnalysis caseId =>
      encryptedCases s' = encryptedCases s /\
      events s' = (events s ++ [AnalysisRequested caseId])%list /\
      decryptionRequests s'
      = (decryptionRequests s
         ++ [(counterRequest s,
              [toBytes32 (encryptedCharge (encryptedCases s caseId));
               toBytes32 (encryptedSentence (encryptedCases s caseId));
               toBytes32 (encryptedJudgeId (encryptedCases s caseId))],
              analyzeCase_selector)])%list
  | AnalyzeCase r ct pf =>
      encryptedCases s' = encryptedCases s /\
      events s' = (events s ++ [CaseAnalyzed (requestToCaseId s r)])%list /\
      decryptionRequests s' = decryptionRequests s
  | RequestJudgeStatsDecryption j =>
      encryptedCases s' = encryptedCases s /\
      events s' = events s /\
      decryptionRequests s'
      = (decryptionRequests s
         ++ [(counterRequest s, [toBytes32 (encryptedJudgeStats s j)],
              decryptJudgeStats_selector)])%list
  | DecryptJudgeStats r ct pf => s' = s
  end.
Proof.
  destruct c; cbn [exec].
  - unfold submitEncryptedCase.
    destruct (checked_add (caseCount s) 1) as [n|e] eqn:Hadd; [|discriminate].
    apply checked_add_inv in Hadd as [-> _]. cbn [bind].
    intros Heq. inversion Heq; subst s'. cbn. now repeat split.
  - unfold requestSentencingAnalysis.
    destruct (isAnalyzed (decryptedCases s caseId)); [discriminate|].
    cbn [negb require bind]. unfold requestDecryption.
    destruct (forallb isInitialized _); [|discriminate].
    cbn. intros Heq. inversion Heq; subst s'. cbn. now repeat split.
  - unfold analyzeCase.
    destruct (negb (requestToCaseId s requestId =? 0)); [|discriminate].
    cbn [require bind].
    destruct (negb (isAnalyzed (decryptedCases s (requestToCaseId s requestId))));
      [|discriminate].
    cbn [require bind].
    destruct (checkSignatures requestId cleartexts proof); [|discriminate].
    cbn [require bind].
    destruct (abi_decode_case cleartexts) as [[[c n] j]|]; [|discriminate].
    intros Heq. inversion Heq; subst s'. cbn.
    destruct (negb _); cbn; now repeat split.
  - unfold requestJudgeStatsDecryption.
    destruct (isInitialized (encryptedJudgeStats s j)); [|discriminate].
    cbn [require bind]. unfold requestDecryption.
    destruct (forallb isInitialized _); [|discriminate].
    cbn. intros Heq. inversion Heq; subst s'. cbn. now repeat split.
  - apply decryptJudgeStats_inv.
Qed.

End Effects.

(** ** Invariants of the reachable storage *)

Section Invariants.

Context {oracle : Oracle}.

(** [abi.decode] reads the sentence as a uint256. *)
Hypothesis abi_decode_uint256 :
  forall ct c n j, abi_decode_case ct = Some (c, n, j) -> 0 <= n <= MAX_UINT256.

Lemma wf_init : wf init.
Proof.
  constructor; cbn; try lia; try easy.
  constructor.
Qed.

Lemma wf_submitEncryptedCase (s s' : state) (now : Z) (a b c : euint32) :
  wf s -> submitEncryptedCase s now a b c = Ok s' -> wf s'.
Proof.
  intros [Hcc Hun Hse Hju Hnd Hpe Hct] Hok.
  apply submitEncryptedCase_inv in Hok
    as (Hle & Hcc' & Hdc & Hst & Hjl & Hrq & Hcr).
  constructor.
  - lia.
  - intros k. rewrite Hdc. unfold upd.
    destruct (k =? caseCount s + 1); [reflexivity | apply Hun].
  - intros k. rewrite Hdc. unfold upd.
    destruct (k =? caseCount s + 1); [cbn; pose proof MAX_UINT256_pos; lia | apply Hse].
  - intros j. rewrite Hst, Hjl. apply Hju.
  - now rewrite Hjl.
  - intros r. rewrite Hrq, Hcr. apply Hpe.
  - now rewrite Hcr.
Qed.

Lemma wf_pending_upd (s s' : state) (v : Z) :
  wf s ->
  (forall r, requestToCaseId s' r = upd (requestToCaseId s) (counterRequest s) v r) ->
  counterRequest s' = counterRequest s + 1 ->
  forall r, requestToCaseId s' r <> 0 -> 0 <= r < counterRequest s'.
Proof.
  intros Hwf Hrq Hcr r. rewrite Hrq, Hcr. unfold upd.
  pose proof (wf_counter s Hwf).
  destruct (Z.eqb_spec r (counterRequest s)) as [->|Hne]; [lia|].
  intros Hr. pose proof (wf_pending s Hwf r Hr). lia.
Qed.

Lemma wf_requestSentencingAnalysis (s s' : state) (caseId : Z) :
  wf s -> requestSentencingAnalysis s caseId = Ok s' -> wf s'.
Proof.
  intros Hwf Hok. pose proof Hwf as [Hcc Hun Hse Hju Hnd Hpe Hct].
  apply requestSentencingAnalysis_inv in Hok
    as (_ & Hcc' & Hdc & Hst & Hjl & Hrq & Hcr).
  constructor.
  - lia.
  - intros k. rewrite Hdc. apply Hun.
  - intros k. rewrite Hdc. apply Hse.
  - intros j. rewrite Hst, Hjl. apply Hju.
  - now rewrite Hjl.
  - now apply (wf_pending_upd s s' caseId).
  - lia.
Qed.

Lemma wf_requestJudgeStatsDecryption (s s' : state) (j : string) :
  wf s -> requestJudgeStatsDecryption s j = Ok s' -> wf s'.
Proof.
  intros Hwf Hok. pose proof Hwf as [Hcc Hun Hse Hju Hnd Hpe Hct].
  apply requestJudgeStatsDecryption_inv in Hok
    as (_ & Hcc' & Hdc & Hst & Hjl & Hrq & Hcr & _).
  constructor.
  - lia.
  - intros k. rewrite Hdc. apply Hun.
  - intros k. rewrite Hdc. apply Hse.
  - intros j'. rewrite Hst, Hjl. apply Hju.
  - now rewrite Hjl.
  - now apply (wf_pending_upd s s' (bytes32ToUint (keccak256 j))).
  - lia.
Qed.

Lemma wf_analyzeCase (s s' : state) (r : Z) (ct pf : bytes) :
  wf s -> analyzeCase s r ct pf = Ok s' -> wf s'.
Proof.
  intros Hwf Hok. pose proof Hwf as [Hcc Hun Hse Hju Hnd Hpe Hct].
  apply analyzeCase_inv in Hok
    as (c & n & j & Hr & Han & Hsig & Hdec & Hcc' & Hdc & Hst & Hjl & Hrq & Hcr).
  apply abi_decode_uint256 in Hdec.
  constructor.
  - lia.
  - intros k. rewrite Hdc. unfold upd.
    destruct (k =? requestToCaseId s r); [discriminate | apply Hun].
  - intros k. rewrite Hdc. unfold upd.
    destruct (k =? requestToCaseId s r); [exact Hdec | apply Hse].
  - intros j'. rewrite Hst, Hjl. unfold upd_str.
    destruct (String.eqb_spec j' j) as [->|Hne].
    + cbn. split; [reflexivity|]. intros _.
      destruct (isInitialized (encryptedJudgeStats s j)) eqn:Hin.
      * now apply Hju.
      * apply in_or_app. right. now left.
    + rewrite <- Hju.
      destruct (isInitialized (encryptedJudgeStats s j)); [reflexivity|].
      rewrite in_app_iff. cbn. intuition congruence.
  - rewrite Hjl.
    destruct (isInitialized (encryptedJudgeStats s j)) eqn:Hin; [assumption|].
    assert (Hnot : ~ In j (judgeList s)).
    { rewrite Hju. congruence. }
    clear - Hnd Hnot. induction (judgeList s) as [|x l IH]; cbn.
    + constructor; [easy | constructor].
    + inversion Hnd; subst. constructor.
      * rewrite in_app_iff. cbn in *. intuition congruence.
      * apply IH; [assumption|]. cbn in Hnot. intuition.
  - intros r'. rewrite Hrq, Hcr. apply Hpe.
  - now rewrite Hcr.
Qed.

Lemma wf_step (s : state) (c : call) : wf s -> wf (step s c).
Proof.
  intros Hwf. unfold step. destruct (exec s c) as [s'|e] eqn:Hex; [|assumption].
  destruct c; cbn [exec] in Hex.
  - eapply wf_submitEncryptedCase; eassumption.
  - eapply wf_requestSentencingAnalysis; eassumption.
  - eapply wf_analyzeCase; eassumption.
  - eapply wf_requestJudgeStatsDecryption; eassumption.
  - apply decryptJudgeStats_inv in Hex. now subst.
Qed.

Lemma wf_run (cs : list call) (s : state) : wf s -> wf (run s cs).
Proof.
  revert s. induction cs as [|c cs IH]; intros s Hwf; cbn; [assumption|].
  apply IH. now apply wf_step.
Qed.

Lemma reachable_wf (s : state) : reachable s -> wf s.
Proof. intros [cs ->]. apply wf_run, wf_init. Qed.

Lemma run_app (s : state) (cs1 cs2 : list call) :
  run s (cs1 ++ cs2) = run (run s cs1) cs2.
Proof. unfold run. apply fold_left_app. Qed.

Lemma finalizedJudges_app (s : state) (cs1 cs2 : list call) :
  finalizedJudges s (cs1 ++ cs2)
  = (finalizedJudges s cs1 ++ finalizedJudges (run s cs1) cs2)%list.
Proof.
  revert s. induction cs1 as [|c cs1 IH]; intros s; cbn; [reflexivity|].
  now rewrite IH, app_assoc.
Qed.

End Invariants.

(** ** The accumulators count the finalized cases *)

Section Accumulators.

Context {oracle : Oracle}.

Hypothesis abi_decode_uint256 :
  forall ct c n j, abi_decode_case ct = Some (c, n, j) -> 0 <= n <= MAX_UINT256.

Lemma stats_upd_notin (f : string -> euint32) (j : string) (v : euint32)
    (l : list string) :
  ~ In j l ->
  map (fun x => decrypt (upd_str f j v x)) l = map (fun x => decrypt (f x)) l.
Proof.
  intros Hnot. apply map_ext_in. intros x Hx.
  rewrite upd_str_other; [reflexivity|]. intros ->. contradiction.
Qed.

Lemma stats_upd_in (f : string -> euint32) (j : string) (v : euint32)
    (l : list string) :
  NoDup l -> In j l ->
  sum_list (map (fun x => decrypt (upd_str f j v x)) l)
  = sum_list (map (fun x => decrypt (f x)) l) - decrypt (f j) + decrypt v.
Proof.
  induction l as [|x l IH]; intros Hnd Hin; [contradiction|].
  inversion Hnd as [|? ? Hx Hnd']; subst.
  destruct Hin as [->|Hin].
  - cbn [map]. rewrite upd_str_same, stats_upd_notin by assumption.
    unfold sum_list. cbn. lia.
  - cbn [map]. rewrite upd_str_other by (intros ->; contradiction).
    unfold sum_list in *. cbn [fold_right]. rewrite IH by assumption. lia.
Qed.

Lemma finalizedBy_analyzeCase (s s' : state) (r : Z) (ct pf : bytes)
    (c : string) (n : Z) (j : string) :
  analyzeCase s r ct pf = Ok s' -> abi_decode_case ct = Some (c, n, j) ->
  finalizedBy s (AnalyzeCase r ct pf) = [j].
Proof. intros Hok Hdec. cbn. now rewrite Hok, Hdec. Qed.

Lemma finalizedBy_revert (s : state) (c : call) (e : error) :
  exec s c = Revert e -> finalizedBy s c = [].
Proof. destruct c; cbn; try reflexivity. now intros ->. Qed.

Lemma accumulators_step (s : state) (h : list string) (c : call) :
  wf s -> accumulators_agree s h ->
  accumulators_agree (step s c) (h ++ finalizedBy s c).
Proof.
  intros Hwf Hagree. unfold step.
  destruct (exec s c) as [s'|e] eqn:Hex;
    [|rewrite (finalizedBy_revert s c e Hex), app_nil_r; assumption].
  destruct Hagree as (Hini & Hdec & Htot).
  destruct c; cbn [exec] in Hex.
  - apply submitEncryptedCase_inv in Hex as (_ & _ & _ & Hst & Hjl & _).
    cbn [finalizedBy]. rewrite app_nil_r.
    unfold accumulators_agree, judgeStatsTotal. now rewrite Hst, Hjl.
  - apply requestSentencingAnalysis_inv in Hex as (_ & _ & _ & Hst & Hjl & _).
    cbn [finalizedBy]. rewrite app_nil_r.
    unfold accumulators_agree, judgeStatsTotal. now rewrite Hst, Hjl.
  - pose proof Hex as Hinv.
    apply analyzeCase_inv in Hinv
      as (c & n & j & _ & _ & _ & Hd & _ & _ & Hst & Hjl & _).
    rewrite (finalizedBy_analyzeCase s s' requestId cleartexts proof c n j Hex Hd).
    repeat split.
    + rewrite Hst, in_app_iff. unfold upd_str.
      destruct (String.eqb_spec j0 j) as [->|Hne]; intros H.
      * right. now left.
      * left. now apply Hini.
    + rewrite Hst, in_app_iff. unfold upd_str.
      destruct (String.eqb_spec j0 j) as [->|Hne]; [reflexivity|].
      intros [H|[H|[]]]; [now apply Hini | congruence].
    + intros j'. rewrite Hst, count_occ_app. unfold upd_str. cbn [count_occ].
      destruct (String.eqb_spec j' j) as [->|Hne].
      * destruct (string_dec j j) as [_|]; [|contradiction].
        cbn [decrypt]. rewrite Hdec. lia.
      * destruct (string_dec j j') as [->|_]; [contradiction|].
        rewrite Hdec. lia.
    + unfold judgeStatsTotal. rewrite length_app. cbn [List.length].
      rewrite (map_ext _ _ (fun x => f_equal decrypt (Hst x))), Hjl.
      unfold judgeStatsTotal in Htot.
      destruct (isInitialized (encryptedJudgeStats s j)) eqn:Hin.
      * rewrite stats_upd_in;
          [|apply (wf_nodup s Hwf) | now apply (wf_judges s Hwf)].
        cbn [decrypt]. lia.
      * assert (Hnot : ~ In j (judgeList s)).
        { rewrite (wf_judges s Hwf). congruence. }
        rewrite map_app, sum_list_app, stats_upd_notin by assumption.
        cbn [map]. rewrite upd_str_same. cbn [decrypt].
        destruct (encryptedJudgeStats s j); [|discriminate].
        unfold sum_list in *. cbn. lia.
  - apply requestJudgeStatsDecryption_inv in Hex as (_ & _ & _ & Hst & Hjl & _).
    cbn [finalizedBy]. rewrite app_nil_r.
    unfold accumulators_agree, judgeStatsTotal. now rewrite Hst, Hjl.
  - apply decryptJudgeStats_inv in Hex. subst s'.
    cbn [finalizedBy]. rewrite app_nil_r. exact (conj Hini (conj Hdec Htot)).
Qed.

(** In every reachable storage the accumulators add up to the number of
    cases finalized so far, one accumulator per judge cited. *)
Lemma accumulators_reachable (cs : list call) :
  accumulators_agree (run init cs) (finalizedJudges init cs).
Proof.
  induction cs as [|c cs IH] using rev_ind.
  - cbn. repeat split; cbn; try easy.
  - rewrite run_app, finalizedJudges_app. cbn [run fold_left finalizedJudges].
    rewrite app_nil_r. apply accumulators_step; [|assumption].
    apply wf_run; [assumption | apply wf_init].
Qed.

Lemma Zseq_snoc (n : nat) (i : Z) :
  Zseq i (S n) = (Zseq i n ++ [i + Z.of_nat n])%list.
Proof.
  revert i. induction n as [|n IH]; intros i.
  - cbn. now rewrite Z.add_0_r.
  - change (Zseq i (S (S n))) with (i :: Zseq (i + 1) (S n)).
    rewrite IH. cbn [Zseq app]. do 3 f_equal. lia.
Qed.

Lemma filter_Zseq_ext (p p' : Z -> bool) (n : nat) (i : Z) :
  (forall x, i <= x < i + Z.of_nat n -> p' x = p x) ->
  filter p' (Zseq i n) = filter p (Zseq i n).
Proof.
  intros Hext. apply filter_ext_in. intros x Hx. apply Hext.
  now apply Zseq_In.
Qed.

(** Setting the flag of one identifier of a run lengthens the filtered
    run by one. *)
Lemma filter_Zseq_flag (p p' : Z -> bool) (k : Z) :
  p k = false -> p' k = true -> (forall x, x <> k -> p' x = p x) ->
  forall (n : nat) (i : Z),
    i <= k < i + Z.of_nat n ->
    List.length (filter p' (Zseq i n)) = S (List.length (filter p (Zseq i n))).
Proof.
  intros Hk Hk' Hext n. induction n as [|n IH]; intros i Hin; [lia|].
  cbn [Zseq filter].
  destruct (Z.eq_dec i k) as [->|Hne].
  - rewrite Hk, Hk'. cbn [List.length]. f_equal. f_equal.
    apply filter_Zseq_ext. intros x Hx. apply Hext. lia.
  - rewrite (Hext i Hne).
    destruct (p i); cbn [List.length]; rewrite IH by lia; reflexivity.
Qed.

Lemma analyzedCount_step (s : state) (c : call) :
  wf s -> finalizesSubmitted s c ->
  analyzedCount (step s c)
  = analyzedCount s + Z.of_nat (List.length (finalizedBy s c)).
Proof.
  intros Hwf Hsub. unfold step.
  destruct (exec s c) as [s'|e] eqn:Hex;
    [|rewrite (finalizedBy_revert s c e Hex); cbn; lia].
  pose proof (wf_caseCount s Hwf) as Hcc0.
  destruct c; cbn [exec] in Hex.
  - apply submitEncryptedCase_inv in Hex as (_ & Hcc & Hdc & _).
    cbn [finalizedBy List.length]. rewrite Z.add_0_r.
    unfold analyzedCount, caseIds. rewrite Hcc.
    replace (Z.to_nat (caseCount s + 1)) with (S (Z.to_nat (caseCount s))) by lia.
    rewrite Zseq_snoc, filter_app, length_app. cbn [filter].
    rewrite Hdc, Z2Nat.id, Z.add_comm, upd_same by lia. cbn [isAnalyzed zeroDecryptedCase List.length].
    rewrite Nat.add_0_r. do 2 f_equal.
    apply filter_Zseq_ext. intros x Hx. rewrite Hdc, upd_other by lia.
    reflexivity.
  - apply requestSentencingAnalysis_inv in Hex as (_ & Hcc & Hdc & _).
    cbn [finalizedBy List.length]. unfold analyzedCount, caseIds.
    rewrite Hcc, Hdc. lia.
  - pose proof Hex as Hinv.
    apply analyzeCase_inv in Hinv
      as (c & n & j & _ & Han & _ & Hd & Hcc & Hdc & _).
    rewrite (finalizedBy_analyzeCase s s' requestId cleartexts proof c n j Hex Hd).
    specialize (Hsub s' Hex). cbn [List.length].
    unfold analyzedCount, caseIds. rewrite Hcc.
    rewrite (filter_Zseq_flag
               (fun k => isAnalyzed (decryptedCases s k))
               (fun k => isAnalyzed (decryptedCases s' k))
               (requestToCaseId s requestId)).
    + lia.
    + assumption.
    + now rewrite Hdc, upd_same.
    + intros x Hx. now rewrite Hdc, upd_other.
    + lia.
  - apply requestJudgeStatsDecryption_inv in Hex as (_ & Hcc & Hdc & _).
    cbn [finalizedBy List.length]. unfold analyzedCount, caseIds.
    rewrite Hcc, Hdc. lia.
  - apply decryptJudgeStats_inv in Hex. subst s'. cbn [finalizedBy List.length].
    lia.
Qed.





(** *** Callbacks that answer analysis requests *)

Lemma wf_requests_init : wf_requests init.
Proof. constructor; cbn; [reflexivity | easy | easy]. Qed.

Lemma wf_requests_step (s : state) (c : call) :
  wf s -> wf_requests s -> wf_requests (step s c).
Proof.
  intros Hwf [Hzero Hiss Htgt]. pose proof (wf_caseCount s Hwf) as Hcc.
  unfold step. destruct (exec s c) as [s'|e] eqn:Hex; [|now constructor].
  pose proof (exec_log s s' c Hex) as Hlog.
  destruct c; cbn [exec] in Hex.
  - apply submitEncryptedCase_inv in Hex as (_ & Hcc' & _ & _ & _ & Hrq & Hcr).
    destruct Hlog as (Henc & _ & Hreqs).
    constructor.
    + intros k Hk. rewrite Henc, upd_other by lia. apply Hzero. lia.
    + intros r cts sel. rewrite Hreqs, Hcr. apply Hiss.
    + intros r cts. rewrite Hreqs, Hrq, Hcc'. intros Hin.
      specialize (Htgt r cts Hin). lia.
  - pose proof (requestSentencingAnalysis_handles s s' caseId Hex)
      as (Hcharge & _ & _ & _).
    apply requestSentencingAnalysis_inv in Hex
      as (_ & Hcc' & _ & _ & _ & Hrq & Hcr).
    destruct Hlog as (Henc & _ & Hreqs).
    constructor.
    + intros k. rewrite Henc, Hcc'. apply Hzero.
    + intros r cts sel. rewrite Hreqs, Hcr, in_app_iff. intros [Hin|Hin].
      * specialize (Hiss r cts sel Hin). lia.
      * destruct Hin as [Heq|[]]. inversion Heq. lia.
    + intros r cts. rewrite Hreqs, Hrq, Hcc', in_app_iff. intros [Hin|Hin].
      * pose proof (Hiss r cts _ Hin). rewrite upd_other by lia.
        now apply (Htgt r cts).
      * destruct Hin as [Heq|[]]. inversion Heq; subst r. rewrite upd_same.
        destruct (Z_lt_le_dec caseId 1) as [Hlo|Hlo];
          [rewrite Hzero in Hcharge by lia; discriminate|].
        destruct (Z_lt_le_dec (caseCount s) caseId) as [Hhi|Hhi];
          [rewrite Hzero in Hcharge by lia; discriminate|].
        lia.
  - apply analyzeCase_inv in Hex
      as (c & n & j & _ & _ & _ & _ & Hcc' & _ & _ & _ & Hrq & Hcr).
    destruct Hlog as (Henc & _ & Hreqs).
    constructor.
    + intros k. rewrite Henc, Hcc'. apply Hzero.
    + intros r' cts sel. rewrite Hreqs, Hcr. apply Hiss.
    + intros r' cts. rewrite Hreqs, Hrq, Hcc'. apply Htgt.
  - apply requestJudgeStatsDecryption_inv in Hex
      as (_ & Hcc' & _ & _ & _ & Hrq & Hcr & _).
    destruct Hlog as (Henc & _ & Hreqs).
    constructor.
    + intros k. rewrite Henc, Hcc'. apply Hzero.
    + intros r cts sel. rewrite Hreqs, Hcr, in_app_iff. intros [Hin|Hin].
      * specialize (Hiss r cts sel Hin). lia.
      * destruct Hin as [Heq|[]]. inversion Heq. lia.
    + intros r cts. rewrite Hreqs, Hrq, Hcc', in_app_iff. intros [Hin|Hin].
      * pose proof (Hiss r cts _ Hin). rewrite upd_other by lia.
        now apply (Htgt r cts).
      * destruct Hin as [Heq|[]]. discriminate Heq.
  - subst s'. now constructor.
Qed.

Lemma wf_requests_run (cs : list call) (s : state) :
  wf s -> wf_requests s -> wf_requests (run s cs).
Proof.
  revert s. induction cs as [|c cs IH]; intros s Hwf Hreq; cbn; [assumption|].
  apply IH; [now apply wf_step | now apply wf_requests_step].
Qed.

Lemma reachable_wf_requests (s : state) : reachable s -> wf_requests s.
Proof.
  intros [cs ->]. apply wf_requests_run; [apply wf_init | apply wf_requests_init].
Qed.




End Accumulators.

(** ** The query engine *)

Section Queries.

Context {oracle : Oracle}.

Hypothesis abi_decode_uint256 :
  forall ct c n j, abi_decode_case ct = Some (c, n, j) -> 0 <= n <= MAX_UINT256.

(** [keccak256] is treated as collision-free, which is what makes the
    comparison of two hashes a comparison of the two strings. *)
Hypothesis keccak256_injective :
  forall a b, keccak256 a = keccak256 b -> a = b.

Lemma same_string_eqb (a b : string) : same_string a b = String.eqb a b.
Proof.
  unfold same_string.
  destruct (String.eqb_spec a b) as [->|Hne].
  - apply Z.eqb_refl.
  - apply Z.eqb_neq. intros Heq. now apply Hne, keccak256_injective.
Qed.

Lemma fold_min_le (l : list Z) (a : Z) :
  fold_left Z.min l a <= a /\
  (forall x, In x l -> fold_left Z.min l a <= x) /\
  (fold_left Z.min l a = a \/ In (fold_left Z.min l a) l).
Proof.
  revert a. induction l as [|y l IH]; intros a; cbn [fold_left In].
  - split; [lia|]. split; [easy | now left].
  - destruct (IH (Z.min a y)) as (H1 & H2 & H3). split; [|split].
    + lia.
    + intros x [<-|Hx]; [lia | now apply H2].
    + destruct H3 as [H3|H3]; [|now right; right].
      destruct (Z.min_spec a y) as [[_ Hm]|[_ Hm]]; rewrite Hm in *.
      * now left.
      * right. left. now rewrite H3.
Qed.

Lemma fold_max_ge (l : list Z) (a : Z) :
  a <= fold_left Z.max l a /\
  (forall x, In x l -> x <= fold_left Z.max l a) /\
  (fold_left Z.max l a = a \/ In (fold_left Z.max l a) l).
Proof.
  revert a. induction l as [|y l IH]; intros a; cbn [fold_left In].
  - split; [lia|]. split; [easy | now left].
  - destruct (IH (Z.max a y)) as (H1 & H2 & H3). split; [|split].
    + lia.
    + intros x [<-|Hx]; [lia | now apply H2].
    + destruct H3 as [H3|H3]; [|now right; right].
      destruct (Z.max_spec a y) as [[_ Hm]|[_ Hm]]; rewrite Hm in *.
      * right. left. now rewrite H3.
      * now left.
Qed.

Lemma fold_min_is_min (l : list Z) (a : Z) :
  l <> [] -> (forall x, In x l -> x <= a) -> is_min (fold_left Z.min l a) l.
Proof.
  intros Hne Hle. destruct (fold_min_le l a) as (H1 & H2 & H3).
  split; [|assumption].
  destruct H3 as [H3|H3]; [|assumption].
  destruct l as [|y l]; [contradiction|].
  assert (Hy : In y (y :: l)) by now left.
  pose proof (H2 y Hy). pose proof (Hle y Hy).
  replace (fold_left Z.min (y :: l) a) with y by lia. assumption.
Qed.

Lemma fold_max_is_max (l : list Z) (a : Z) :
  l <> [] -> (forall x, In x l -> a <= x) -> is_max (fold_left Z.max l a) l.
Proof.
  intros Hne Hle. destruct (fold_max_ge l a) as (H1 & H2 & H3).
  split; [|assumption].
  destruct H3 as [H3|H3]; [|assumption].
  destruct l as [|y l]; [contradiction|].
  assert (Hy : In y (y :: l)) by now left.
  pose proof (H2 y Hy). pose proof (Hle y Hy).
  replace (fold_left Z.max (y :: l) a) with y by lia. assumption.
Qed.

Variable s : state.
Hypothesis s_wf : wf s.
Variable chargeType : string.

Lemma sentences_nonneg (p : Z -> bool) (l : list Z) :
  0 <= sum_list (map (fun k => sentence (decryptedCases s k)) (filter p l)).
Proof.
  apply sum_list_nonneg. intros x Hx. apply in_map_iff in Hx as (k & <- & _).
  apply (wf_sentence s s_wf).
Qed.

(** The scan of [calculateSentencingStats] over a run of case ids. *)
Lemma stats_scan (l : list Z) :
  forall total count mn mx,
    let ms := map (fun k => sentence (decryptedCases s k)) (filter (matches s chargeType) l) in
    total + sum_list ms <= MAX_UINT256 ->
    count + Z.of_nat (List.length ms) <= MAX_UINT256 ->
    foldM (stats_body s chargeType) l (total, count, mn, mx)
    = Ok (total + sum_list ms, count + Z.of_nat (List.length ms),
          fold_left Z.min ms mn, fold_left Z.max ms mx).
Proof.
  induction l as [|k l IH]; intros total count mn mx ms Htot Hcnt.
  - subst ms. cbn. now rewrite !Z.add_0_r.
  - subst ms. cbn [foldM stats_body]. cbn [filter] in *.
    rewrite same_string_eqb. fold (matches s chargeType k).
    pose proof (sentences_nonneg (matches s chargeType) l) as Hrest.
    destruct (matches s chargeType k) eqn:Hk.
    + cbn [map List.length fold_left] in *. rewrite sum_list_cons in *.
      rewrite checked_add_ok by lia. cbn [bind].
      rewrite checked_add_ok by lia. cbn [bind].
      rewrite IH by lia.
      f_equal. f_equal; [f_equal; [f_equal; lia|]|].
      * f_equal. destruct (Z.ltb_spec (sentence (decryptedCases s k)) mn); lia.
      * f_equal. rewrite Z.gtb_ltb.
        destruct (Z.ltb_spec mx (sentence (decryptedCases s k))); lia.
    + cbn [bind]. now apply IH.
Qed.

Lemma calculateSentencingStats_scan :
  caseCount s < MAX_UINT256 ->
  sum_list (matching s chargeType) <= MAX_UINT256 ->
  calculateSentencingStats s chargeType
  = Ok (average (matching s chargeType),
        fold_left Z.min (matching s chargeType) MAX_UINT256,
        fold_left Z.max (matching s chargeType) 0).
Proof.
  intros Hcc Hsum. unfold calculateSentencingStats.
  pose proof (wf_caseCount s s_wf) as Hge.
  rewrite for_loop_Zseq by (try assumption; lia).
  fold (caseIds s).
  assert (Hlen : Z.of_nat (List.length (matching s chargeType)) <= MAX_UINT256).
  { unfold matching. rewrite length_map.
    pose proof (filter_length_le (matches s chargeType) (caseIds s)) as Hle.
    unfold caseIds in Hle at 2. rewrite Zseq_length in Hle. lia. }
  rewrite stats_scan; fold (matching s chargeType); [|lia|lia].
  cbn [bind]. rewrite !Z.add_0_l. unfold average.
  destruct (matching s chargeType) as [|x l]; [reflexivity|].
  cbn [List.length]. rewrite Z.gtb_ltb.
  destruct (Z.ltb_spec 0 (Z.of_nat (S (List.length l)))); [reflexivity | lia].
Qed.

(** The scan of [detectSentencingDisparities] for one judge. *)
Lemma disparity_scan (j : string) (l : list Z) :
  forall total count,
    let ms :=
      map (fun k => sentence (decryptedCases s k)) (filter (matchesJudge s chargeType j) l) in
    total + sum_list ms <= MAX_UINT256 ->
    count + Z.of_nat (List.length ms) <= MAX_UINT256 ->
    foldM (disparity_body s chargeType j) l (total, count)
    = Ok (total + sum_list ms, count + Z.of_nat (List.length ms)).
Proof.
  induction l as [|k l IH]; intros total count ms Htot Hcnt.
  - subst ms. cbn. now rewrite !Z.add_0_r.
  - subst ms. cbn [foldM disparity_body]. cbn [filter] in *.
    rewrite !same_string_eqb. fold (matchesJudge s chargeType j k).
    pose proof (sentences_nonneg (matchesJudge s chargeType j) l) as Hrest.
    destruct (matchesJudge s chargeType j k) eqn:Hk.
    + cbn [map List.length] in *. rewrite sum_list_cons in *.
      rewrite checked_add_ok by lia. cbn [bind].
      rewrite checked_add_ok by lia. cbn [bind].
      rewrite IH by lia.
      f_equal. f_equal; lia.
    + cbn [bind]. now apply IH.
Qed.

Lemma disparity_inner (j : string) :
  caseCount s < MAX_UINT256 ->
  sum_list (matchingJudge s chargeType j) <= MAX_UINT256 ->
  for_loop (Z.to_nat (caseCount s)) 1 (caseCount s)
    (disparity_body s chargeType j) (0, 0)
  = Ok (sum_list (matchingJudge s chargeType j),
        Z.of_nat (List.length (matchingJudge s chargeType j))).
Proof.
  intros Hcc Hsum.
  pose proof (wf_caseCount s s_wf) as Hge.
  rewrite for_loop_Zseq by (try assumption; lia).
  fold (caseIds s).
  assert (Hlen : Z.of_nat (List.length (matchingJudge s chargeType j))
                 <= MAX_UINT256).
  { unfold matchingJudge. rewrite length_map.
    pose proof (filter_length_le (matchesJudge s chargeType j) (caseIds s))
      as Hle.
    unfold caseIds in Hle at 2. rewrite Zseq_length in Hle. lia. }
  rewrite disparity_scan; fold (matchingJudge s chargeType j); [|lia|lia].
  now rewrite !Z.add_0_l.
Qed.

Lemma disparity_outer_loop (judgeIds : list string) :
  caseCount s < MAX_UINT256 ->
  (forall j, In j judgeIds ->
             sum_list (matchingJudge s chargeType j) <= MAX_UINT256) ->
  forall rest pre,
    judgeIds = (pre ++ rest)%list ->
    foldM (disparity_outer s chargeType judgeIds)
      (seq (List.length pre) (List.length rest))
      ((pre ++ repeat EmptyString (List.length rest))%list,
       (map (fun j => average (matchingJudge s chargeType j)) pre
        ++ repeat 0 (List.length rest))%list)
    = Ok (judgeIds,
          map (fun j => average (matchingJudge s chargeType j)) judgeIds).
Proof.
  intros Hcc Hsum rest.
  induction rest as [|j rest IH]; intros pre Hsplit.
  - cbn. rewrite !app_nil_r in *. now subst.
  - cbn [List.length seq foldM repeat disparity_outer].
    assert (Hnth : nth (List.length pre) judgeIds EmptyString = j).
    { subst judgeIds. now rewrite nth_middle. }
    rewrite Hnth.
    rewrite disparity_inner;
      [|assumption | apply Hsum; subst; apply in_or_app; right; now left].
    cbn [bind].
    rewrite array_set_middle.
    replace (List.length pre) with
      (List.length (map (fun j => average (matchingJudge s chargeType j)) pre))
      at 2 by apply length_map.
    rewrite array_set_middle.
    specialize (IH (pre ++ [j])%list).
    rewrite <- app_assoc in IH. cbn [app] in IH. specialize (IH Hsplit).
    rewrite length_app, Nat.add_1_r, map_app, <- !app_assoc in IH.
    cbn [map app] in IH.
    rewrite <- IH. do 4 f_equal.
    unfold average.
    destruct (matchingJudge s chargeType j) as [|x l]; [reflexivity|].
    cbn [List.length]. rewrite Z.gtb_ltb.
    destruct (Z.ltb_spec 0 (Z.of_nat (S (List.length l)))); [reflexivity | lia].
Qed.

End Queries.

(** ** The one-shot analysis state machine *)

Section StateMachine.

Context {oracle : Oracle}.

Hypothesis abi_decode_uint256 :
  forall ct c n j, abi_decode_case ct = Some (c, n, j) -> 0 <= n <= MAX_UINT256.

(** A submitted case that is Analyzed stays Analyzed. *)
Lemma analyzed_step (s : state) (c : call) (k : Z) :
  k <= caseCount s -> isAnalyzed (decryptedCases s k) = true ->
  k <= caseCount (step s c) /\ isAnalyzed (decryptedCases (step s c) k) = true.
Proof.
  intros Hk Han. unfold step.
  destruct (exec s c) as [s'|e] eqn:Hex; [|now split].
  destruct c; cbn [exec] in Hex.
  - apply submitEncryptedCase_inv in Hex as (_ & Hcc & Hdc & _).
    rewrite Hcc, Hdc, upd_other by lia. split; [lia | assumption].
  - apply requestSentencingAnalysis_inv in Hex as (_ & Hcc & Hdc & _).
    rewrite Hcc, Hdc. now split.
  - apply analyzeCase_inv in Hex as (c & n & j & _ & _ & _ & _ & Hcc & Hdc & _).
    rewrite Hcc, Hdc. split; [assumption|]. unfold upd.
    destruct (k =? requestToCaseId s requestId); [reflexivity | assumption].
  - apply requestJudgeStatsDecryption_inv in Hex as (_ & Hcc & Hdc & _).
    rewrite Hcc, Hdc. now split.
  - apply decryptJudgeStats_inv in Hex. subst. now split.
Qed.

Lemma analyzed_run (cs : list call) (s : state) (k : Z) :
  k <= caseCount s -> isAnalyzed (decryptedCases s k) = true ->
  isAnalyzed (decryptedCases (run s cs) k) = true.
Proof.
  revert s. induction cs as [|c cs IH]; intros s Hk Han; cbn; [assumption|].
  destruct (analyzed_step s c k Hk Han) as [Hk' Han']. now apply IH.
Qed.

(** A recorded request target is never overwritten: new targets are
    written under fresh request identifiers only. *)
Lemma pending_step (s : state) (c : call) (r : Z) :
  wf s -> requestToCaseId s r <> 0 ->
  requestToCaseId (step s c) r = requestToCaseId s r.
Proof.
  intros Hwf Hr. pose proof (wf_pending s Hwf r Hr) as Hlt. unfold step.
  destruct (exec s c) as [s'|e] eqn:Hex; [|reflexivity].
  destruct c; cbn [exec] in Hex.
  - apply submitEncryptedCase_inv in Hex as (_ & _ & _ & _ & _ & Hrq & _).
    now rewrite Hrq.
  - apply requestSentencingAnalysis_inv in Hex as (_ & _ & _ & _ & _ & Hrq & _).
    rewrite Hrq. apply upd_other. lia.
  - apply analyzeCase_inv in Hex
      as (c & n & j & _ & _ & _ & _ & _ & _ & _ & _ & Hrq & _).
    now rewrite Hrq.
  - apply requestJudgeStatsDecryption_inv in Hex as (_ & _ & _ & _ & _ & Hrq & _).
    rewrite Hrq. apply upd_other. lia.
  - apply decryptJudgeStats_inv in Hex. now subst.
Qed.

Lemma pending_run (cs : list call) (s : state) (r : Z) :
  wf s -> requestToCaseId s r <> 0 ->
  requestToCaseId (run s cs) r = requestToCaseId s r.
Proof.
  revert s. induction cs as [|c cs IH]; intros s Hwf Hr; cbn; [reflexivity|].
  pose proof (pending_step s c r Hwf Hr) as Hstep.
  transitivity (requestToCaseId (step s c) r); [|assumption].
  apply IH; [now apply wf_step | now rewrite Hstep].
Qed.

(** C2. A callback whose proof does not verify reverts whatever else
    holds; when verification is the check that stops it (the request is
    pending and its case not yet analyzed) the revert is ProofInvalid.
    The transaction leaves the storage as it was: the target projection
    is still the empty, unanalyzed one and no accumulator and no entry of
    the judge list has changed. *)
Theorem analyzeCase_invalid_proof (s : state) (r : Z) (ct pf : bytes) :
  reachable s ->
  checkSignatures r ct pf = false ->
  (exists e, analyzeCase s r ct pf = Revert e) /\
  (requestToCaseId s r <> 0 ->
   isAnalyzed (decryptedCases s (requestToCaseId s r)) = false ->
   analyzeCase s r ct pf = Revert ProofInvalid) /\
  step s (AnalyzeCase r ct pf) = s /\
  (isAnalyzed (decryptedCases s (requestToCaseId s r)) = false ->
   getDecryptedCase (step s (AnalyzeCase r ct pf)) (requestToCaseId s r)
   = (EmptyString, 0, EmptyString, false)) /\
  (forall j, encryptedJudgeStats (step s (AnalyzeCase r ct pf)) j
             = encryptedJudgeStats s j) /\
  judgeList (step s (AnalyzeCase r ct pf)) = judgeList s.
Proof.
  intros Hreach Hsig. apply reachable_wf in Hreach; [|assumption].
  assert (Hrev : exists e, analyzeCase s r ct pf = Revert e).
  { destruct (analyzeCase s r ct pf) as [s'|e] eqn:Hex; [|now exists e].
    apply analyzeCase_inv in Hex as (c & n & j & _ & _ & Hsig' & _).
    congruence. }
  assert (Hstep : step s (AnalyzeCase r ct pf) = s).
  { unfold step. cbn [exec]. destruct Hrev as [e ->]. reflexivity. }
  rewrite Hstep. repeat split; try assumption; try reflexivity.
  - intros Hr Han. unfold analyzeCase.
    destruct (Z.eqb_spec (requestToCaseId s r) 0); [contradiction|].
    cbn [negb require bind]. rewrite Han. cbn [negb require bind].
    rewrite Hsig. reflexivity.
  - intros Han. unfold getDecryptedCase.
    now rewrite (wf_unanalyzed s Hreach _ Han).
Qed.

(** C3, as amended.  Once a submitted case has been finalized, in every
    later storage a new analysis request for it and a second callback
    under the same request identifier both revert with AlreadyAnalyzed:
    the pending entry is kept, and it is the analyzed flag that stops the
    replay. *)
Theorem finalized_case_rejects_replay (s s' : state) (r : Z) (ct pf : bytes)
    (cs : list call) (ct' pf' : bytes) :
  reachable s ->
  analyzeCase s r ct pf = Ok s' ->
  1 <= requestToCaseId s r <= caseCount s ->
  requestToCaseId (run s' cs) r = requestToCaseId s r /\
  requestSentencingAnalysis (run s' cs) (requestToCaseId s r)
  = Revert AlreadyAnalyzed /\
  analyzeCase (run s' cs) r ct' pf' = Revert AlreadyAnalyzed.
Proof.
  intros Hreach Hok Hsub. apply reachable_wf in Hreach; [|assumption].
  pose proof (wf_analyzeCase abi_decode_uint256 s s' r ct pf Hreach Hok) as Hwf'.
  apply analyzeCase_inv in Hok
    as (c & n & j & Hr & _ & _ & _ & Hcc & Hdc & _ & _ & Hrq & _).
  assert (Han : isAnalyzed (decryptedCases (run s' cs) (requestToCaseId s r))
                = true).
  { apply analyzed_run; [lia|]. now rewrite Hdc, upd_same. }
  assert (Hpend : requestToCaseId (run s' cs) r = requestToCaseId s r).
  { rewrite pending_run; [now rewrite Hrq | assumption | now rewrite Hrq]. }
  repeat split; [assumption | |].
  - unfold requestSentencingAnalysis. now rewrite Han.
  - unfold analyzeCase. rewrite Hpend.
    destruct (Z.eqb_spec (requestToCaseId s r) 0); [contradiction|].
    cbn [negb require bind]. now rewrite Han.
Qed.

End StateMachine.

(** ** Statistics by charge and by judge *)

Section QueryClaims.

Context {oracle : Oracle}.

Hypothesis abi_decode_uint256 :
  forall ct c n j, abi_decode_case ct = Some (c, n, j) -> 0 <= n <= MAX_UINT256.

Hypothesis keccak256_injective :
  forall a b, keccak256 a = keccak256 b -> a = b.

(** C5, as amended.  [calculateSentencingStats] returns three values,
    (avg, min, max), and no count.  They are computed over the analyzed
    cases whose charge is exactly [chargeType]: avg is floor(sum/count)
    (0 for no match) and, when a case matches, min and max are the least
    and the greatest matching sentence.  The call returns whenever its
    checked arithmetic stays in range: fewer than 2^256 - 1 cases and a
    sum of matching sentences of at most 2^256 - 1. *)
Theorem calculateSentencingStats_correct (s : state) (chargeType : string) :
  reachable s ->
  caseCount s < MAX_UINT256 ->
  sum_list (matching s chargeType) <= MAX_UINT256 ->
  calculateSentencingStats s chargeType
  = Ok (average (matching s chargeType),
        fold_left Z.min (matching s chargeType) MAX_UINT256,
        fold_left Z.max (matching s chargeType) 0) /\
  (matching s chargeType <> [] ->
   is_min (fold_left Z.min (matching s chargeType) MAX_UINT256)
     (matching s chargeType) /\
   is_max (fold_left Z.max (matching s chargeType) 0) (matching s chargeType)).
Proof.
  intros Hreach Hcc Hsum. apply reachable_wf in Hreach; [|assumption].
  split; [now apply calculateSentencingStats_scan|].
  assert (Hrange : forall x, In x (matching s chargeType) -> 0 <= x <= MAX_UINT256).
  { intros x Hx. apply in_map_iff in Hx as (k & <- & _).
    apply (wf_sentence s Hreach). }
  intros Hne. split.
  - apply fold_min_is_min; [assumption|]. intros x Hx. now apply Hrange.
  - apply fold_max_is_max; [assumption|]. intros x Hx. now apply Hrange.
Qed.

(** C6, as amended.  With no analyzed case of the charge the call
    returns avg = 0, max = 0 and, for min, the value the scan starts
    from: type(uint256).max. *)
Theorem calculateSentencingStats_no_match (s : state) (chargeType : string) :
  reachable s ->
  caseCount s < MAX_UINT256 ->
  matching s chargeType = [] ->
  calculateSentencingStats s chargeType = Ok (0, MAX_UINT256, 0).
Proof.
  intros Hreach Hcc Hnone. apply reachable_wf in Hreach; [|assumption].
  rewrite calculateSentencingStats_scan; try assumption.
  - now rewrite Hnone.
  - rewrite Hnone. cbn. pose proof MAX_UINT256_pos. lia.
Qed.

(** C7, as amended.  [detectSentencingDisparities] answers with the
    judge identifiers it was given, in the order given and with their
    repetitions, and beside each the floor of the average sentence of the
    analyzed cases of that charge and that judge, 0 when there is none:
    one (judgeId, avgSentence) pair per input.  The call returns whenever
    its checked arithmetic stays in range: fewer than 2^256 - 1 cases
    and, for each judge asked for, a sum of matching sentences of at most
    2^256 - 1. *)
Theorem detectSentencingDisparities_correct (s : state) (chargeType : string)
    (judgeIds : list string) :
  reachable s ->
  caseCount s < MAX_UINT256 ->
  (forall j, In j judgeIds ->
             sum_list (matchingJudge s chargeType j) <= MAX_UINT256) ->
  exists judges avgSentences,
    detectSentencingDisparities s chargeType judgeIds
    = Ok (judges, avgSentences) /\
    judges = judgeIds /\
    avgSentences
    = map (fun j => average (matchingJudge s chargeType j)) judgeIds /\
    combine judges avgSentences
    = map (fun j => (j, average (matchingJudge s chargeType j))) judgeIds.
Proof.
  intros Hreach Hcc Hsum. apply reachable_wf in Hreach; [|assumption].
  exists judgeIds, (map (fun j => average (matchingJudge s chargeType j)) judgeIds).
  repeat split.
  - unfold detectSentencingDisparities.
    apply (disparity_outer_loop keccak256_injective s Hreach chargeType judgeIds
             Hcc Hsum judgeIds []).
    reflexivity.
  - clear. induction judgeIds as [|j l IH]; cbn; [reflexivity | now rewrite IH].
Qed.

End QueryClaims.

(** ** Decryption of a judge's accumulator *)

Section JudgeStats.

Context {oracle : Oracle}.

Hypothesis abi_decode_uint256 :
  forall ct c n j, abi_decode_case ct = Some (c, n, j) -> 0 <= n <= MAX_UINT256.

(** C8 fails on the contract.  A successful [decryptJudgeStats] hands
    back the storage it was given, and hands back the same storage
    whatever count the cleartext carries: the decoded count is neither
    stored nor returned. *)
Theorem decryptJudgeStats_discards_count (s s' : state) (r : Z) (ct pf : bytes) :
  decryptJudgeStats s r ct pf = Ok s' ->
  s' = s /\
  forall ct2 pf2 s2, decryptJudgeStats s r ct2 pf2 = Ok s2 -> s2 = s'.
Proof.
  intros Hok. apply decryptJudgeStats_inv in Hok. subst s'.
  split; [reflexivity|]. intros ct2 pf2 s2 Hok2.
  now apply decryptJudgeStats_inv in Hok2.
Qed.

(** C9.  After any trace of calls, [requestJudgeStatsDecryption j]
    reverts with the not-found error exactly when [j] has no
    accumulator, which is exactly when no finalized case of the trace
    cites [j]; otherwise it succeeds, sends the accumulator's handle to
    the oracle under the decryptJudgeStats selector and records
    keccak256(j) as the target of the request identifier returned. *)
Theorem requestJudgeStatsDecryption_correct (cs : list call) (j : string) :
  (requestJudgeStatsDecryption (run init cs) j = Revert NotFound <->
   isInitialized (encryptedJudgeStats (run init cs) j) = false) /\
  (isInitialized (encryptedJudgeStats (run init cs) j) = false <->
   ~ In j (finalizedJudges init cs)) /\
  (In j (finalizedJudges init cs) ->
   exists s',
     requestJudgeStatsDecryption (run init cs) j = Ok s' /\
     decryptionRequests s'
     = (decryptionRequests (run init cs)
        ++ [(counterRequest (run init cs),
             [toBytes32 (encryptedJudgeStats (run init cs) j)],
             decryptJudgeStats_selector)])%list /\
     requestToCaseId s' (counterRequest (run init cs))
     = bytes32ToUint (keccak256 j)).
Proof.
  destruct (accumulators_reachable abi_decode_uint256 cs) as (Hini & _ & _).
  set (s := run init cs) in *.
  assert (Hiff : isInitialized (encryptedJudgeStats s j) = false <->
                 ~ In j (finalizedJudges init cs)).
  { rewrite <- Hini. destruct (isInitialized (encryptedJudgeStats s j));
      split; congruence. }
  split; [|split; [exact Hiff|]].
  - unfold requestJudgeStatsDecryption, requestDecryption, toBytes32.
    cbn [forallb].
    destruct (isInitialized (encryptedJudgeStats s j)); cbn; split;
      congruence.
  - intros Hin. apply Hini in Hin.
    destruct (requestJudgeStatsDecryption s j) as [s'|e] eqn:Hreq.
    + exists s'. split; [reflexivity|].
      apply requestJudgeStatsDecryption_inv in Hreq
        as (_ & _ & _ & _ & _ & Hrq & _ & Hlog).
      split; [assumption|]. rewrite Hrq. apply upd_same.
    + unfold requestJudgeStatsDecryption, requestDecryption, toBytes32 in Hreq.
      cbn [forallb] in Hreq. rewrite Hin in Hreq.
      cbn in Hreq. discriminate.
Qed.

End JudgeStats.

(** ** The scenarios *)

Lemma mock_abi_decode_uint256 (ct : @bytes Mock.oracle) (c : string) (n : Z)
    (j : string) :
  @abi_decode_case Mock.oracle ct = Some (c, n, j) -> 0 <= n <= MAX_UINT256.
Proof.
  destruct ct as [c0 n0 j0| |]; cbn [abi_decode_case Mock.oracle];
    try discriminate.
  destruct (0 <=? n0) eqn:Hlo; [|discriminate].
  destruct (n0 <=? MAX_UINT256) eqn:Hhi; [|discriminate].
  intros Heq. inversion Heq; subst.
  apply Z.leb_le in Hlo, Hhi. lia.
Qed.

Lemma str_code_pos (s : string) : 1 <= Mock.str_code s.
Proof.
  induction s as [|a s IH]; cbn [Mock.str_code]; [lia|].
  pose proof (N2Z.is_nonneg (Ascii.N_of_ascii a)). lia.
Qed.

Lemma str_code_injective (a b : string) :
  Mock.str_code a = Mock.str_code b -> a = b.
Proof.
  revert b. induction a as [|x a IH]; intros [|y b]; cbn [Mock.str_code].
  - reflexivity.
  - pose proof (str_code_pos b). pose proof (N2Z.is_nonneg (Ascii.N_of_ascii y)).
    lia.
  - pose proof (str_code_pos a). pose proof (N2Z.is_nonneg (Ascii.N_of_ascii x)).
    lia.
  - intros Heq.
    pose proof (Ascii.N_ascii_bounded x) as Hx.
    pose proof (Ascii.N_ascii_bounded y) as Hy.
    assert (Hxy : Ascii.N_of_ascii x = Ascii.N_of_ascii y) by lia.
    assert (Hab : Mock.str_code a = Mock.str_code b) by lia.
    f_equal; [|now apply IH].
    now rewrite <- (Ascii.ascii_N_embedding x), Hxy, Ascii.ascii_N_embedding.
Qed.

Lemma mock_keccak256_injective (a b : string) :
  @keccak256 Mock.oracle a = @keccak256 Mock.oracle b -> a = b.
Proof.
  cbn [keccak256 Mock.oracle]. intros Heq. apply str_code_injective. lia.
Qed.

(** The callbacks of the theft ledger finalize submitted cases, and its
    accumulators count them. *)
Lemma theft_ledger_submittedOnly :
  submittedOnly (oracle := Mock.oracle) init Mock.theft_trace /\
  judgeStatsTotal Mock.theft_state = 3 /\
  analyzedCount Mock.theft_state = 3.
Proof.
  split; [|split; vm_compute; reflexivity].
  unfold Mock.theft_trace, Mock.pending_trace.
  cbn [app submittedOnly finalizesSubmitted].
  do 6 (split; [exact I|]).
  do 3 (split; [intros s' _; vm_compute; split; discriminate|]).
  exact I.
Qed.

(** Sums beyond the uint256 range make both queries revert with the
    arithmetic panic. *)
Lemma sums_beyond_uint256_revert :
  sum_list (matching Mock.overflow_state "Theft") = 2 ^ 256 /\
  @calculateSentencingStats Mock.oracle Mock.overflow_state "Theft"
  = Revert Overflow /\
  @detectSentencingDisparities Mock.oracle Mock.overflow_state "Theft"
    ["A"%string]
  = Revert Overflow.
Proof. split; [|split]; vm_compute; reflexivity. Qed.



Lemma analyzeCase_invalid_proof_witness :
  reachable (oracle := Mock.oracle) Mock.pending_state /\
  @checkSignatures Mock.oracle 0 (Mock.CasePlain "Theft" 10 "A")
    (Mock.Signature false) = false /\
  @analyzeCase Mock.oracle Mock.pending_state 0 (Mock.CasePlain "Theft" 10 "A")
    (Mock.Signature false) = Revert ProofInvalid /\
  step (oracle := Mock.oracle) Mock.pending_state
    (@AnalyzeCase Mock.oracle 0 (Mock.CasePlain "Theft" 10 "A")
       (Mock.Signature false))
  = Mock.pending_state /\
  getDecryptedCase Mock.pending_state 1 = (EmptyString, 0, EmptyString, false).
Proof.
  assert (Hreach : reachable (oracle := Mock.oracle) Mock.pending_state)
    by (exists Mock.pending_trace; reflexivity).
  assert (Hsig : @checkSignatures Mock.oracle 0 (Mock.CasePlain "Theft" 10 "A")
                   (Mock.Signature false) = false) by reflexivity.
  destruct (@analyzeCase_invalid_proof Mock.oracle mock_abi_decode_uint256
              Mock.pending_state 0 (Mock.CasePlain "Theft" 10 "A")
              (Mock.Signature false) Hreach Hsig)
    as (_ & Hrev & Hstep & Hget & _).
  split; [exact Hreach|]. split; [exact Hsig|].
  split; [apply Hrev; vm_compute; [discriminate | reflexivity]|].
  split; [exact Hstep|].
  rewrite Hstep in Hget. apply Hget. vm_compute. reflexivity.
Defined.

(** C3 fails as stated: after case 1 has been finalized under request 0,
    request 0 still maps to case 1 and a second callback under it
    reverts with AlreadyAnalyzed, not with InvalidRequest. *)
Lemma replayed_callback_is_already_analyzed :
  exists s',
    @analyzeCase Mock.oracle Mock.pending_state 0
      (Mock.CasePlain "Theft" 10 "A") (Mock.Signature true) = Ok s' /\
    requestToCaseId s' 0 = 1 /\
    @analyzeCase Mock.oracle s' 0 (Mock.CasePlain "Theft" 10 "A")
      (Mock.Signature true) = Revert AlreadyAnalyzed /\
    @analyzeCase Mock.oracle s' 0 (Mock.CasePlain "Theft" 10 "A")
      (Mock.Signature true) <> Revert InvalidRequest.
Proof.
  eexists. split; [vm_compute; reflexivity|].
  split; [vm_compute; reflexivity|].
  split; [vm_compute; reflexivity|].
  vm_compute. discriminate.
Qed.

Lemma finalized_case_rejects_replay_witness :
  let finalized :=
    step (oracle := Mock.oracle) Mock.pending_state
      (@AnalyzeCase Mock.oracle 0 (Mock.CasePlain "Theft" 10 "A")
         (Mock.Signature true)) in
  let later :=
    run (oracle := Mock.oracle) finalized
      [ @AnalyzeCase Mock.oracle 1 (Mock.CasePlain "Theft" 20 "A")
          (Mock.Signature true);
        @AnalyzeCase Mock.oracle 2 (Mock.CasePlain "Theft" 30 "B")
          (Mock.Signature true) ] in
  reachable (oracle := Mock.oracle) Mock.pending_state /\
  @analyzeCase Mock.oracle Mock.pending_state 0 (Mock.CasePlain "Theft" 10 "A")
    (Mock.Signature true) = Ok finalized /\
  1 <= requestToCaseId Mock.pending_state 0 <= caseCount Mock.pending_state /\
  requestSentencingAnalysis later (requestToCaseId Mock.pending_state 0)
  = Revert AlreadyAnalyzed /\
  @analyzeCase Mock.oracle later 0 (Mock.CasePlain "Fraud" 99 "B")
    (Mock.Signature true) = Revert AlreadyAnalyzed.
Proof.
  intros finalized later.
  assert (Hok : @analyzeCase Mock.oracle Mock.pending_state 0
                  (Mock.CasePlain "Theft" 10 "A") (Mock.Signature true)
                = Ok finalized)
    by (vm_compute; reflexivity).
  assert (Hreach : reachable (oracle := Mock.oracle) Mock.pending_state)
    by (exists Mock.pending_trace; reflexivity).
  assert (Hsub : 1 <= requestToCaseId Mock.pending_state 0
                 <= caseCount Mock.pending_state)
    by (vm_compute; split; discriminate).
  destruct (@finalized_case_rejects_replay Mock.oracle mock_abi_decode_uint256
              Mock.pending_state finalized
              0 (Mock.CasePlain "Theft" 10 "A") (Mock.Signature true)
              [ @AnalyzeCase Mock.oracle 1 (Mock.CasePlain "Theft" 20 "A")
                  (Mock.Signature true);
                @AnalyzeCase Mock.oracle 2 (Mock.CasePlain "Theft" 30 "B")
                  (Mock.Signature true) ]
              (Mock.CasePlain "Fraud" 99 "B") (Mock.Signature true)
              Hreach Hok Hsub)
    as (_ & Hreq & Hreplay).
  split; [exact Hreach|]. split; [exact Hok|]. split; [exact Hsub|].
  split; [exact Hreq | exact Hreplay].
Defined.

(** C4 fails on the contract.  [requestSentencingAnalysis] has no
    existence check: whatever the storage and the identifier, it never
    reverts with the not-found error, and the one revert of its own, the
    already-analyzed error, depends on the analyzed flag of the
    projection alone. *)
Theorem requestSentencingAnalysis_no_existence_check (s : state) (caseId : Z) :
  requestSentencingAnalysis s caseId <> Revert NotFound /\
  (requestSentencingAnalysis s caseId = Revert AlreadyAnalyzed <->
   isAnalyzed (decryptedCases s caseId) = true).
Proof.
  unfold requestSentencingAnalysis, requestDecryption.
  destruct (isAnalyzed (decryptedCases s caseId)); cbn [negb require bind].
  - split; [discriminate | now split].
  - destruct (forallb isInitialized _); cbn [bind];
      (split; [discriminate | split; discriminate]).
Qed.

(** C5 fails as stated: for the three Theft cases the call returns the
    three values 20, 10, 30; the count is not among them. *)
Lemma calculateSentencingStats_returns_no_count :
  exists r,
    @calculateSentencingStats Mock.oracle Mock.theft_state "Theft" = Ok r /\
    return_data r = [20; 10; 30] /\
    return_data r <> [20; 10; 30; 3].
Proof.
  exists (20, 10, 30). split; [vm_compute; reflexivity|].
  split; [reflexivity | discriminate].
Qed.

Lemma calculateSentencingStats_correct_witness :
  reachable (oracle := Mock.oracle) Mock.theft_state /\
  caseCount Mock.theft_state < MAX_UINT256 /\
  sum_list (matching Mock.theft_state "Theft") <= MAX_UINT256 /\
  matching Mock.theft_state "Theft" = [10; 20; 30] /\
  @calculateSentencingStats Mock.oracle Mock.theft_state "Theft"
  = Ok (20, 10, 30).
Proof.
  assert (Hreach : reachable (oracle := Mock.oracle) Mock.theft_state)
    by (exists Mock.theft_trace; reflexivity).
  assert (Hcc : caseCount Mock.theft_state < MAX_UINT256)
    by (vm_compute; reflexivity).
  assert (Hsum : sum_list (matching Mock.theft_state "Theft") <= MAX_UINT256)
    by (vm_compute; discriminate).
  destruct (@calculateSentencingStats_correct Mock.oracle mock_abi_decode_uint256
              mock_keccak256_injective Mock.theft_state "Theft" Hreach Hcc Hsum)
    as [Heq _].
  split; [exact Hreach|]. split; [exact Hcc|]. split; [exact Hsum|].
  split; [vm_compute; reflexivity|].
  rewrite Heq. vm_compute. reflexivity.
Defined.

(** C6 fails as stated: with no Fraud case analyzed the call returns
    min = 2^256 - 1, the greatest uint256. *)
Lemma calculateSentencingStats_leaks_sentinel :
  matching Mock.theft_state "Fraud" = [] /\
  @calculateSentencingStats Mock.oracle Mock.theft_state "Fraud"
  = Ok (0, 2 ^ 256 - 1, 0).
Proof. split; vm_compute; reflexivity. Qed.

Lemma calculateSentencingStats_no_match_witness :
  reachable (oracle := Mock.oracle) Mock.theft_state /\
  caseCount Mock.theft_state < MAX_UINT256 /\
  matching Mock.theft_state "Fraud" = [] /\
  @calculateSentencingStats Mock.oracle Mock.theft_state "Fraud"
  = Ok (0, MAX_UINT256, 0).
Proof.
  assert (Hreach : reachable (oracle := Mock.oracle) Mock.theft_state)
    by (exists Mock.theft_trace; reflexivity).
  assert (Hcc : caseCount Mock.theft_state < MAX_UINT256)
    by (vm_compute; reflexivity).
  assert (Hnone : matching Mock.theft_state "Fraud" = [])
    by (vm_compute; reflexivity).
  split; [exact Hreach|]. split; [exact Hcc|]. split; [exact Hnone|].
  exact (@calculateSentencingStats_no_match Mock.oracle mock_abi_decode_uint256
           mock_keccak256_injective Mock.theft_state "Fraud" Hreach Hcc Hnone).
Defined.

(** C7 fails as stated: two submitted Theft cases finalized for judge A
    with sentences 2^255 each; asked for judge A the call reverts with
    the arithmetic panic and returns no pair. *)
Lemma detectSentencingDisparities_sum_overflows :
  reachable (oracle := Mock.oracle) Mock.overflow_state /\
  submittedOnly (oracle := Mock.oracle) init Mock.overflow_trace /\
  matchingJudge Mock.overflow_state "Theft" "A" = [2 ^ 255; 2 ^ 255] /\
  @detectSentencingDisparities Mock.oracle Mock.overflow_state "Theft"
    ["A"%string]
  = Revert Overflow.
Proof.
  split; [exists Mock.overflow_trace; reflexivity|].
  split; [|split; vm_compute; reflexivity].
  unfold Mock.overflow_trace, Mock.pending_trace.
  cbn [app submittedOnly finalizesSubmitted].
  do 6 (split; [exact I|]).
  do 2 (split; [intros s' _; vm_compute; split; discriminate|]).
  exact I.
Qed.

Lemma detectSentencingDisparities_correct_witness :
  reachable (oracle := Mock.oracle) Mock.theft_state /\
  caseCount Mock.theft_state < MAX_UINT256 /\
  exists judges avgSentences,
    @detectSentencingDisparities Mock.oracle Mock.theft_state "Theft"
      ["A"; "B"; "C"; "A"]%string
    = Ok (judges, avgSentences) /\
    combine judges avgSentences
    = [("A", 15); ("B", 30); ("C", 0); ("A", 15)]%string.
Proof.
  assert (Hreach : reachable (oracle := Mock.oracle) Mock.theft_state)
    by (exists Mock.theft_trace; reflexivity).
  assert (Hcc : caseCount Mock.theft_state < MAX_UINT256)
    by (vm_compute; reflexivity).
  assert (Hsum : forall j, In j ["A"; "B"; "C"; "A"]%string ->
                           sum_list (matchingJudge Mock.theft_state "Theft" j)
                           <= MAX_UINT256).
  { intros j [<-|[<-|[<-|[<-|[]]]]]; vm_compute; discriminate. }
  destruct (@detectSentencingDisparities_correct Mock.oracle
              mock_abi_decode_uint256 mock_keccak256_injective Mock.theft_state
              "Theft" ["A"; "B"; "C"; "A"]%string Hreach Hcc Hsum)
    as (judges & avgs & Heq & _ & _ & Hpairs).
  split; [exact Hreach|]. split; [exact Hcc|].
  exists judges, avgs. split; [exact Heq|].
  rewrite Hpairs. vm_compute. reflexivity.
Defined.

Lemma decryptJudgeStats_discards_count_witness :
  requestToCaseId Mock.stats_requested_state 3 = @keccak256 Mock.oracle "A" /\
  @decryptJudgeStats Mock.oracle Mock.stats_requested_state 3
    (Mock.CountPlain 2) (Mock.Signature true)
  = Ok Mock.stats_requested_state /\
  forall ct2 pf2 s2,
    @decryptJudgeStats Mock.oracle Mock.stats_requested_state 3 ct2 pf2 = Ok s2 ->
    s2 = Mock.stats_requested_state.
Proof.
  assert (Hok : @decryptJudgeStats Mock.oracle Mock.stats_requested_state 3
                  (Mock.CountPlain 2) (Mock.Signature true)
                = Ok Mock.stats_requested_state)
    by (vm_compute; reflexivity).
  destruct (@decryptJudgeStats_discards_count Mock.oracle
              Mock.stats_requested_state Mock.stats_requested_state 3
              (Mock.CountPlain 2) (Mock.Signature true) Hok)
    as [_ Hsame].
  split; [vm_compute; reflexivity|]. split; [exact Hok | exact Hsame].
Defined.

Lemma requestJudgeStatsDecryption_correct_witness :
  finalizedJudges (oracle := Mock.oracle) init Mock.theft_trace
  = ["A"; "A"; "B"]%string /\
  @requestJudgeStatsDecryption Mock.oracle Mock.theft_state "C"
  = Revert NotFound /\
  exists s',
    @requestJudgeStatsDecryption Mock.oracle Mock.theft_state "A" = Ok s' /\
    requestToCaseId s' 3 = @keccak256 Mock.oracle "A".
Proof.
  pose proof (@requestJudgeStatsDecryption_correct Mock.oracle
                mock_abi_decode_uint256 Mock.theft_trace "C") as (HC & HC' & _).
  pose proof (@requestJudgeStatsDecryption_correct Mock.oracle
                mock_abi_decode_uint256 Mock.theft_trace "A") as (_ & _ & HA).
  split; [vm_compute; reflexivity|]. split.
  - apply HC, HC'. vm_compute. intros [H|[H|[H|[]]]]; discriminate H.
  - destruct HA as (s' & Hreq & _ & Htarget).
    + vm_compute. now left.
    + exists s'. split; [exact Hreq | exact Htarget].
Defined.


(** * Further properties of the contract *)

(** ** The ledger of encrypted records *)

Section Ledger.

Context {oracle : Oracle}.

Hypothesis abi_decode_uint256 :
  forall ct c n j, abi_decode_case ct = Some (c, n, j) -> 0 <= n <= MAX_UINT256.

Lemma run_snoc (s : state) (cs : list call) (c : call) :
  run s (cs ++ [c]) = step (run s cs) c.
Proof. now rewrite run_app. Qed.

Lemma caseCount_step (s : state) (c : call) :
  caseCount s <= caseCount (step s c).
Proof.
  unfold step. destruct (exec s c) as [s'|e] eqn:Hex; [|lia].
  destruct c; cbn [exec] in Hex.
  - apply submitEncryptedCase_inv in Hex as (_ & -> & _). lia.
  - apply requestSentencingAnalysis_inv in Hex as (_ & -> & _). lia.
  - apply analyzeCase_inv in Hex as (c & n & j & _ & _ & _ & _ & -> & _). lia.
  - apply requestJudgeStatsDecryption_inv in Hex as (_ & -> & _). lia.
  - apply decryptJudgeStats_inv in Hex. subst. lia.
Qed.

Lemma encryptedCases_step (s : state) (c : call) (k : Z) :
  k <= caseCount s -> encryptedCases (step s c) k = encryptedCases s k.
Proof.
  intros Hk. unfold step. destruct (exec s c) as [s'|e] eqn:Hex; [|reflexivity].
  apply exec_log in Hex. destruct c.
  - destruct Hex as (-> & _). apply upd_other. lia.
  - destruct Hex as (-> & _). reflexivity.
  - destruct Hex as (-> & _). reflexivity.
  - destruct Hex as (-> & _). reflexivity.
  - now subst.
Qed.

(** X1.  The encrypted record of a submitted case is never touched
    again: whatever calls follow, the identifier, the three ciphertext
    handles and the timestamp stored under a case id stay what the
    submission wrote. *)
Theorem encryptedCases_immutable (s : state) (cs : list call) (k : Z) :
  1 <= k <= caseCount s ->
  encryptedCases (run s cs) k = encryptedCases s k.
Proof.
  intros [_ Hk]. revert s Hk.
  induction cs as [|c cs IH]; intros s Hk; [reflexivity|].
  change (run s (c :: cs)) with (run (step s c) cs).
  rewrite IH by (pose proof (caseCount_step s c); lia).
  now apply encryptedCases_step.
Qed.

(** X2.  In every reachable storage the record stored under each
    identifier 1..caseCount carries that identifier, and every other
    identifier holds the all-zero record: identifiers are assigned
    sequentially and never reused. *)
Theorem encryptedCases_sequential (cs : list call) (k : Z) :
  (1 <= k <= caseCount (run init cs) ->
   id (encryptedCases (run init cs) k) = k) /\
  (k < 1 \/ caseCount (run init cs) < k ->
   encryptedCases (run init cs) k = zeroEncryptedCase).
Proof.
  induction cs as [|c cs IH] using rev_ind.
  - cbn. split; [lia | reflexivity].
  - rewrite run_snoc. set (s := run init cs) in *.
    assert (Hwf : wf s) by (apply wf_run; [assumption | apply wf_init]).
    pose proof (wf_caseCount s Hwf) as Hcc.
    unfold step. destruct (exec s c) as [s'|e] eqn:Hex; [|exact IH].
    pose proof (exec_log s s' c Hex) as Hlog.
    destruct c; cbn [exec] in Hex.
    + apply submitEncryptedCase_inv in Hex as (_ & Hcc' & _).
      destruct Hlog as (Henc & _). rewrite Hcc', !Henc. unfold upd.
      destruct (Z.eqb_spec k (caseCount s + 1)) as [->|Hne].
      * split; [reflexivity | lia].
      * split; intros H; apply IH; lia.
    + apply requestSentencingAnalysis_inv in Hex as (_ & Hcc' & _).
      destruct Hlog as (-> & _). now rewrite Hcc'.
    + apply analyzeCase_inv in Hex as (c & n & j & _ & _ & _ & _ & Hcc' & _).
      destruct Hlog as (-> & _). now rewrite Hcc'.
    + apply requestJudgeStatsDecryption_inv in Hex as (_ & Hcc' & _).
      destruct Hlog as (-> & _). now rewrite Hcc'.
    + now subst s'.
Qed.

Lemma submittedIds_app (l1 l2 : list event) :
  submittedIds (l1 ++ l2) = (submittedIds l1 ++ submittedIds l2)%list.
Proof. apply flat_map_app. Qed.

Lemma analyzedIds_app (l1 l2 : list event) :
  analyzedIds (l1 ++ l2) = (analyzedIds l1 ++ analyzedIds l2)%list.
Proof. apply flat_map_app. Qed.

(** X3.  The CaseSubmitted events of the log announce the identifiers
    1, 2, .., caseCount, each once and in this order: there is one event
    per case record and its identifier is the record's. *)
Theorem caseSubmitted_events (cs : list call) :
  submittedIds (events (run init cs)) = caseIds (run init cs).
Proof.
  induction cs as [|c cs IH] using rev_ind; [reflexivity|].
  rewrite run_snoc. set (s := run init cs) in *.
  assert (Hwf : wf s) by (apply wf_run; [assumption | apply wf_init]).
  pose proof (wf_caseCount s Hwf) as Hcc.
  unfold step. destruct (exec s c) as [s'|e] eqn:Hex; [|exact IH].
  pose proof (exec_log s s' c Hex) as Hlog.
  destruct c; cbn [exec] in Hex.
  - apply submitEncryptedCase_inv in Hex as (_ & Hcc' & _).
    destruct Hlog as (_ & -> & _). unfold caseIds. rewrite Hcc'.
    replace (Z.to_nat (caseCount s + 1)) with (S (Z.to_nat (caseCount s))) by lia.
    rewrite submittedIds_app, Zseq_snoc, IH, Z2Nat.id by lia. unfold caseIds.
    cbn [submittedIds flat_map app]. do 2 f_equal. lia.
  - apply requestSentencingAnalysis_inv in Hex as (_ & Hcc' & _).
    destruct Hlog as (_ & -> & _). unfold caseIds. rewrite Hcc'.
    rewrite submittedIds_app, IH. cbn. apply app_nil_r.
  - apply analyzeCase_inv in Hex as (c & n & j & _ & _ & _ & _ & Hcc' & _).
    destruct Hlog as (_ & -> & _). unfold caseIds. rewrite Hcc'.
    rewrite submittedIds_app, IH. cbn. apply app_nil_r.
  - apply requestJudgeStatsDecryption_inv in Hex as (_ & Hcc' & _).
    destruct Hlog as (_ & -> & _). unfold caseIds. now rewrite Hcc'.
  - now subst s'.
Qed.

End Ledger.

(** ** Accumulators, judge index and CaseAnalyzed events *)

Section JudgeIndex.

Context {oracle : Oracle}.

Hypothesis abi_decode_uint256 :
  forall ct c n j, abi_decode_case ct = Some (c, n, j) -> 0 <= n <= MAX_UINT256.

Lemma analyzedIds_finalized (cs : list call) :
  List.length (analyzedIds (events (run init cs)))
  = List.length (finalizedJudges init cs).
Proof.
  induction cs as [|c cs IH] using rev_ind; [reflexivity|].
  rewrite run_snoc, finalizedJudges_app. cbn [finalizedJudges].
  rewrite app_nil_r, length_app, <- IH. set (s := run init cs) in *.
  unfold step. destruct (exec s c) as [s'|e] eqn:Hex;
    [|rewrite (finalizedBy_revert s c e Hex); cbn; lia].
  pose proof (exec_log s s' c Hex) as Hlog.
  destruct c; cbn [exec] in Hex.
  - destruct Hlog as (_ & -> & _). rewrite analyzedIds_app, length_app. reflexivity.
  - destruct Hlog as (_ & -> & _). rewrite analyzedIds_app, length_app. reflexivity.
  - destruct Hlog as (_ & -> & _). rewrite analyzedIds_app, length_app.
    pose proof Hex as Hinv.
    apply analyzeCase_inv in Hinv as (c & n & j & _ & _ & _ & Hd & _).
    now rewrite (finalizedBy_analyzeCase s s' requestId cleartexts proof c n j Hex Hd).
  - destruct Hlog as (_ & -> & _). cbn. lia.
  - subst s'. cbn. lia.
Qed.

(** X4.  In every reachable storage the decrypted accumulators add up
    to the number of CaseAnalyzed events emitted so far. *)
Theorem accumulators_count_CaseAnalyzed_events (cs : list call) :
  judgeStatsTotal (run init cs)
  = Z.of_nat (List.length (analyzedIds (events (run init cs)))).
Proof.
  destruct (accumulators_reachable abi_decode_uint256 cs) as (_ & _ & ->).
  now rewrite analyzedIds_finalized.
Qed.

(** X5.  [getEncryptedJudgeStats] never reverts.  The handle it returns
    for a judge decrypts to the number of finalized cases that cite the
    judge, and it is the zero (uninitialized) handle exactly when no
    finalized case cites the judge. *)
Theorem getEncryptedJudgeStats_counts_citations (cs : list call) (j : string) :
  decrypt (getEncryptedJudgeStats (run init cs) j)
  = Z.of_nat (count_occ string_dec (finalizedJudges init cs) j) /\
  (getEncryptedJudgeStats (run init cs) j = Uninitialized <->
   count_occ string_dec (finalizedJudges init cs) j = 0%nat).
Proof.
  destruct (accumulators_reachable abi_decode_uint256 cs) as (Hini & Hdec & _).
  unfold getEncryptedJudgeStats. split; [apply Hdec|].
  rewrite <- count_occ_not_In, <- Hini.
  destruct (encryptedJudgeStats (run init cs) j); cbn; split; congruence.
Qed.

Lemma firstSeen_snoc (l : list string) (j : string) :
  firstSeen (l ++ [j])
  = if in_dec string_dec j (firstSeen l) then firstSeen l
    else (firstSeen l ++ [j])%list.
Proof. unfold firstSeen. now rewrite fold_left_app. Qed.

(** X6.  The judge list holds the judges cited by the finalized cases,
    each once, in the order in which they were first cited. *)
Theorem judgeList_first_citations (cs : list call) :
  judgeList (run init cs) = firstSeen (finalizedJudges init cs).
Proof.
  induction cs as [|c cs IH] using rev_ind; [reflexivity|].
  rewrite run_snoc, finalizedJudges_app. cbn [finalizedJudges].
  rewrite app_nil_r. set (s := run init cs) in *.
  assert (Hwf : wf s) by (apply wf_run; [assumption | apply wf_init]).
  unfold step. destruct (exec s c) as [s'|e] eqn:Hex;
    [|now rewrite (finalizedBy_revert s c e Hex), app_nil_r].
  destruct c; cbn [exec] in Hex.
  - apply submitEncryptedCase_inv in Hex as (_ & _ & _ & _ & -> & _).
    cbn [finalizedBy]. now rewrite app_nil_r.
  - apply requestSentencingAnalysis_inv in Hex as (_ & _ & _ & _ & -> & _).
    cbn [finalizedBy]. now rewrite app_nil_r.
  - pose proof Hex as Hinv.
    apply analyzeCase_inv in Hinv
      as (c & n & j & _ & _ & _ & Hd & _ & _ & _ & Hjl & _).
    rewrite (finalizedBy_analyzeCase s s' requestId cleartexts proof c n j Hex Hd).
    rewrite firstSeen_snoc, <- IH, Hjl.
    destruct (in_dec string_dec j (judgeList s)) as [Hin|Hnot].
    + apply (wf_judges s Hwf) in Hin. now rewrite Hin.
    + destruct (isInitialized (encryptedJudgeStats s j)) eqn:Hini; [|reflexivity].
      apply (wf_judges s Hwf) in Hini. contradiction.
  - apply requestJudgeStatsDecryption_inv in Hex as (_ & _ & _ & _ & -> & _).
    cbn [finalizedBy]. now rewrite app_nil_r.
  - apply decryptJudgeStats_inv in Hex. subst s'.
    cbn [finalizedBy]. now rewrite app_nil_r.
Qed.

Lemma analyzedCount_step_le (s : state) (c : call) :
  wf s ->
  analyzedCount (step s c)
  <= analyzedCount s + Z.of_nat (List.length (finalizedBy s c)).
Proof.
  intros Hwf.
  destruct c as [now a b d|caseId|r ct pf|j|r ct pf];
    try (rewrite analyzedCount_step by (try assumption; exact I); lia).
  destruct (analyzeCase s r ct pf) as [s'|e] eqn:Hex.
  - destruct (Z_le_dec 1 (requestToCaseId s r)) as [Hlo|Hlo];
      [destruct (Z_le_dec (requestToCaseId s r) (caseCount s)) as [Hhi|Hhi]|].
    + rewrite analyzedCount_step; [lia | assumption |].
      intros s0 _. lia.
    + unfold step. cbn [exec]. rewrite Hex.
      apply analyzeCase_inv in Hex as (c & n & j & _ & _ & _ & _ & Hcc & Hdc & _).
      unfold analyzedCount, caseIds. rewrite Hcc.
      rewrite (filter_Zseq_ext (fun k => isAnalyzed (decryptedCases s k))
                 (fun k => isAnalyzed (decryptedCases s' k))); [lia|].
      intros x Hx. pose proof (wf_caseCount s Hwf).
      rewrite Hdc, upd_other by lia. reflexivity.
    + unfold step. cbn [exec]. rewrite Hex.
      apply analyzeCase_inv in Hex as (c & n & j & _ & _ & _ & _ & Hcc & Hdc & _).
      unfold analyzedCount, caseIds. rewrite Hcc.
      rewrite (filter_Zseq_ext (fun k => isAnalyzed (decryptedCases s k))
                 (fun k => isAnalyzed (decryptedCases s' k))); [lia|].
      intros x Hx. rewrite Hdc, upd_other by lia. reflexivity.
  - unfold step. cbn [exec]. rewrite Hex. lia.
Qed.

(** X7.  The accumulators never undercount: in every reachable storage
    the number of case records that are Analyzed is at most the sum of
    the decrypted accumulators. *)
Theorem analyzedCount_le_accumulators (cs : list call) :
  analyzedCount (run init cs) <= judgeStatsTotal (run init cs).
Proof.
  destruct (accumulators_reachable abi_decode_uint256 cs) as (_ & _ & ->).
  induction cs as [|c cs IH] using rev_ind; [cbn; lia|].
  rewrite run_snoc, finalizedJudges_app. cbn [finalizedJudges].
  rewrite app_nil_r, length_app.
  pose proof (analyzedCount_step_le (run init cs) c
                (wf_run abi_decode_uint256 cs init wf_init)).
  lia.
Qed.

Lemma analyzed_judge_counted (cs : list call) (k : Z) :
  isAnalyzed (decryptedCases (run init cs) k) = true ->
  1 <= decrypt (encryptedJudgeStats (run init cs)
                  (judgeId (decryptedCases (run init cs) k))).
Proof.
  revert k. induction cs as [|c cs IH] using rev_ind; intros k;
    [cbn; discriminate|].
  rewrite run_snoc.
  destruct (accumulators_reachable abi_decode_uint256 cs) as (_ & Hdec & _).
  set (s := run init cs) in *.
  unfold step. destruct (exec s c) as [s'|e] eqn:Hex; [|apply IH].
  destruct c; cbn [exec] in Hex.
  - apply submitEncryptedCase_inv in Hex as (_ & _ & Hdc & Hst & _).
    rewrite Hdc, Hst. unfold upd.
    destruct (k =? caseCount s + 1); [cbn; discriminate | apply IH].
  - apply requestSentencingAnalysis_inv in Hex as (_ & _ & Hdc & Hst & _).
    rewrite Hdc, Hst. apply IH.
  - apply analyzeCase_inv in Hex
      as (c & n & j & _ & _ & _ & _ & _ & Hdc & Hst & _).
    rewrite Hdc, Hst. unfold upd, upd_str.
    destruct (k =? requestToCaseId s requestId).
    + cbn [judgeId]. rewrite String.eqb_refl. intros _. cbn [decrypt].
      rewrite Hdec. lia.
    + intros Han. specialize (IH k Han).
      destruct (String.eqb_spec (judgeId (decryptedCases s k)) j) as [Heq|Hne];
        [|assumption].
      cbn [decrypt]. rewrite Hdec. lia.
  - apply requestJudgeStatsDecryption_inv in Hex as (_ & _ & Hdc & Hst & _).
    rewrite Hdc, Hst. apply IH.
  - apply decryptJudgeStats_inv in Hex. subst s'. apply IH.
Qed.

(** X8.  Every projection of a reachable storage is either the empty,
    unanalyzed one that [getDecryptedCase] shows before finalization, or
    an analyzed one whose sentence is a uint256 and whose judge is in
    the judge list with an accumulator of at least one. *)
Theorem projection_wellformed (cs : list call) (k : Z) :
  getDecryptedCase (run init cs) k = (EmptyString, 0, EmptyString, false) \/
  (isAnalyzed (decryptedCases (run init cs) k) = true /\
   0 <= sentence (decryptedCases (run init cs) k) <= MAX_UINT256 /\
   In (judgeId (decryptedCases (run init cs) k)) (judgeList (run init cs)) /\
   1 <= decrypt (getEncryptedJudgeStats (run init cs)
                   (judgeId (decryptedCases (run init cs) k)))).
Proof.
  pose proof (wf_run abi_decode_uint256 cs init wf_init) as Hwf.
  destruct (isAnalyzed (decryptedCases (run init cs) k)) eqn:Han.
  - right. pose proof (analyzed_judge_counted cs k Han) as Hone.
    split; [reflexivity|]. split; [apply (wf_sentence _ Hwf)|].
    split; [|exact Hone].
    apply (wf_judges _ Hwf).
    destruct (encryptedJudgeStats (run init cs)
                (judgeId (decryptedCases (run init cs) k)));
      [cbn in Hone; lia | reflexivity].
  - left. unfold getDecryptedCase.
    now rewrite (wf_unanalyzed _ Hwf k Han).
Qed.

End JudgeIndex.

(** ** Requests and their callbacks *)

Section Requests.

Context {oracle : Oracle}.

Hypothesis abi_decode_uint256 :
  forall ct c n j, abi_decode_case ct = Some (c, n, j) -> 0 <= n <= MAX_UINT256.

(** The target recorded for an issued request identifier never changes,
    and identifiers are only ever issued upwards. *)
Lemma issued_step (s : state) (c : call) (r : Z) :
  wf s -> r < counterRequest s ->
  requestToCaseId (step s c) r = requestToCaseId s r /\
  r < counterRequest (step s c).
Proof.
  intros Hwf Hr. unfold step.
  destruct (exec s c) as [s'|e] eqn:Hex; [|now split].
  destruct c; cbn [exec] in Hex.
  - apply submitEncryptedCase_inv in Hex as (_ & _ & _ & _ & _ & -> & ->).
    now split.
  - apply requestSentencingAnalysis_inv in Hex
      as (_ & _ & _ & _ & _ & Hrq & ->).
    rewrite Hrq, upd_other by lia. split; [reflexivity | lia].
  - apply analyzeCase_inv in Hex
      as (c & n & j & _ & _ & _ & _ & _ & _ & _ & _ & -> & ->).
    now split.
  - apply requestJudgeStatsDecryption_inv in Hex
      as (_ & _ & _ & _ & _ & Hrq & -> & _).
    rewrite Hrq, upd_other by lia. split; [reflexivity | lia].
  - apply decryptJudgeStats_inv in Hex. subst. now split.
Qed.

Lemma issued_run (cs : list call) (s : state) (r : Z) :
  wf s -> r < counterRequest s ->
  requestToCaseId (run s cs) r = requestToCaseId s r.
Proof.
  revert s. induction cs as [|c cs IH]; intros s Hwf Hr; [reflexivity|].
  change (run s (c :: cs)) with (run (step s c) cs).
  destruct (issued_step s c r Hwf Hr) as [Heq Hlt].
  rewrite IH; [assumption | now apply wf_step | assumption].
Qed.

Lemma case_zero_empty (cs : list call) :
  decryptedCases (run init cs) 0 = zeroDecryptedCase.
Proof.
  induction cs as [|c cs IH] using rev_ind; [reflexivity|].
  rewrite run_snoc. set (s := run init cs) in *.
  pose proof (wf_caseCount s (wf_run abi_decode_uint256 cs init wf_init)) as Hcc.
  unfold step. destruct (exec s c) as [s'|e] eqn:Hex; [|exact IH].
  destruct c; cbn [exec] in Hex.
  - apply submitEncryptedCase_inv in Hex as (_ & _ & Hdc & _).
    rewrite Hdc, upd_other by lia. exact IH.
  - apply requestSentencingAnalysis_inv in Hex as (_ & _ & -> & _). exact IH.
  - apply analyzeCase_inv in Hex as (c & n & j & Hr & _ & _ & _ & _ & Hdc & _).
    rewrite Hdc, upd_other by congruence. exact IH.
  - apply requestJudgeStatsDecryption_inv in Hex as (_ & _ & -> & _). exact IH.
  - apply decryptJudgeStats_inv in Hex. now subst s'.
Qed.

(** X9.  A callback under a request identifier that was never issued
    reverts with InvalidRequest, before the proof is looked at and
    whatever the cleartext. *)
Theorem analyzeCase_unissued_request (s : state) (r : Z) (ct pf : bytes) :
  reachable s ->
  r < 0 \/ counterRequest s <= r ->
  analyzeCase s r ct pf = Revert InvalidRequest.
Proof.
  intros Hreach Hr. apply reachable_wf in Hreach; [|assumption].
  unfold analyzeCase.
  destruct (Z.eqb_spec (requestToCaseId s r) 0) as [_|Hne]; [reflexivity|].
  pose proof (wf_pending s Hreach r Hne). lia.
Qed.

(** X10.  In every reachable storage an analysis request for an
    identifier that no submission has assigned, 0 included, is refused:
    the record stored there holds three zero handles, so the call reverts
    (in the library, or earlier with AlreadyAnalyzed) and the storage
    stays as it was.  Hence every request the oracle holds for the
    [analyzeCase] selector targets a submitted case. *)
Theorem unknown_case_request_refused (s : state) (k : Z) :
  reachable s ->
  k < 1 \/ caseCount s < k ->
  requestSentencingAnalysis s k
  = (if isAnalyzed (decryptedCases s k) then Revert AlreadyAnalyzed
     else Revert MalformedHandle) /\
  step s (RequestSentencingAnalysis k) = s /\
  forall r cts, In (r, cts, analyzeCase_selector) (decryptionRequests s) ->
                1 <= requestToCaseId s r <= caseCount s.
Proof.
  intros Hreach Hk. apply reachable_wf_requests in Hreach; [|assumption].
  pose proof (requestSentencingAnalysis_zero_record s k
                (wf_zero_record s Hreach k Hk)) as Hreq.
  split; [exact Hreq|]. split; [|exact (wf_target s Hreach)].
  unfold step. cbn [exec]. rewrite Hreq.
  now destruct (isAnalyzed (decryptedCases s k)).
Qed.

(** X11.  A submitted case is finalized at most once, however many
    requests were issued for it: once it is Analyzed, every callback whose
    request identifier maps to it reverts with AlreadyAnalyzed. *)
Theorem analyzed_case_rejects_every_callback (s : state) (k : Z)
    (cs : list call) (r : Z) (ct pf : bytes) :
  reachable s ->
  k <= caseCount s ->
  isAnalyzed (decryptedCases s k) = true ->
  requestToCaseId (run s cs) r = k ->
  analyzeCase (run s cs) r ct pf = Revert AlreadyAnalyzed.
Proof.
  intros [cs0 Hs] Hk Han Hr.
  assert (Hne : k <> 0).
  { intros ->. subst s. rewrite case_zero_empty in Han. discriminate. }
  unfold analyzeCase. rewrite Hr.
  destruct (Z.eqb_spec k 0); [contradiction|]. cbn [negb require bind].
  now rewrite (analyzed_run cs s k Hk Han).
Qed.

Lemma analyzed_projection_step (s : state) (c : call) (k : Z) :
  k <= caseCount s -> isAnalyzed (decryptedCases s k) = true ->
  decryptedCases (step s c) k = decryptedCases s k.
Proof.
  intros Hk Han. unfold step.
  destruct (exec s c) as [s'|e] eqn:Hex; [|reflexivity].
  destruct c; cbn [exec] in Hex.
  - apply submitEncryptedCase_inv in Hex as (_ & _ & Hdc & _).
    rewrite Hdc. apply upd_other. lia.
  - now apply requestSentencingAnalysis_inv in Hex as (_ & _ & -> & _).
  - apply analyzeCase_inv in Hex as (c & n & j & _ & Hun & _ & _ & _ & Hdc & _).
    rewrite Hdc. apply upd_other. intros ->. congruence.
  - now apply requestJudgeStatsDecryption_inv in Hex as (_ & _ & -> & _).
  - apply decryptJudgeStats_inv in Hex. now subst.
Qed.

(** X12.  The projection of a submitted case is written once: after
    the case is Analyzed, [getDecryptedCase] returns the same charge,
    sentence and judge for ever. *)
Theorem analyzed_projection_immutable (s : state) (cs : list call) (k : Z) :
  1 <= k <= caseCount s ->
  isAnalyzed (decryptedCases s k) = true ->
  getDecryptedCase (run s cs) k = getDecryptedCase s k.
Proof.
  intros [_ Hk]. revert s Hk.
  induction cs as [|c cs IH]; intros s Hk Han; [reflexivity|].
  change (run s (c :: cs)) with (run (step s c) cs).
  destruct (analyzed_step s c k Hk Han) as [Hk' Han'].
  rewrite IH by assumption. unfold getDecryptedCase.
  now rewrite analyzed_projection_step.
Qed.

(** X13.  Request, then finalize: the request identifier returned for a
    case keeps pointing at it through any later calls, and as long as
    the case is not Analyzed a callback with a verifying proof and a
    decodable cleartext succeeds, writes the decoded charge, sentence and
    judge as the case's projection and adds one to the judge's
    accumulator. *)
Theorem pending_request_finalizes (s s' : state) (k : Z) (cs : list call)
    (ct pf : bytes) (c : string) (n : Z) (j : string) :
  reachable s ->
  k <> 0 ->
  requestSentencingAnalysis s k = Ok s' ->
  isAnalyzed (decryptedCases (run s' cs) k) = false ->
  checkSignatures (counterRequest s) ct pf = true ->
  abi_decode_case ct = Some (c, n, j) ->
  exists s'',
    analyzeCase (run s' cs) (counterRequest s) ct pf = Ok s'' /\
    getDecryptedCase s'' k = (c, n, j, true) /\
    decrypt (encryptedJudgeStats s'' j)
    = decrypt (encryptedJudgeStats (run s' cs) j) + 1.
Proof.
  intros Hreach Hk Hok Hun Hsig Hdec.
  apply reachable_wf in Hreach; [|assumption].
  pose proof (wf_requestSentencingAnalysis s s' k Hreach Hok) as Hwf'.
  apply requestSentencingAnalysis_inv in Hok as (_ & _ & _ & _ & _ & Hrq & Hcr).
  assert (Htarget : requestToCaseId (run s' cs) (counterRequest s) = k).
  { rewrite issued_run, Hrq by (try assumption; lia). apply upd_same. }
  destruct (analyzeCase (run s' cs) (counterRequest s) ct pf) as [s''|e] eqn:Hex.
  - exists s''. split; [reflexivity|].
    apply analyzeCase_inv in Hex
      as (c0 & n0 & j0 & _ & _ & _ & Hdec' & _ & Hdc & Hst & _).
    rewrite Hdec in Hdec'. inversion Hdec'; subst c0 n0 j0.
    unfold getDecryptedCase.
    rewrite Hdc, Htarget, upd_same, Hst, upd_str_same. now split.
  - exfalso. unfold analyzeCase in Hex. rewrite Htarget in Hex.
    destruct (Z.eqb_spec k 0); [contradiction|]. cbn [negb require bind] in Hex.
    rewrite Hun in Hex. cbn [negb require bind] in Hex.
    rewrite Hsig in Hex. cbn [require bind] in Hex.
    rewrite Hdec in Hex. discriminate.
Qed.

End Requests.

(** ** The judge-statistics callback *)

Section JudgeCallback.

Context {oracle : Oracle}.

Hypothesis abi_decode_uint256 :
  forall ct c n j, abi_decode_case ct = Some (c, n, j) -> 0 <= n <= MAX_UINT256.

Lemma judgeFromHash_none (l : list string) (hash : Z) :
  (forall j, In j l -> keccak256 j <> hash) ->
  judgeFromHash l hash = Revert NotFound.
Proof.
  induction l as [|x l IH]; intros Hnone; [reflexivity|].
  cbn [judgeFromHash]. unfold bytes32ToUint.
  destruct (Z.eqb_spec (keccak256 x) hash) as [Heq|_].
  - exfalso. apply (Hnone x); [now left | assumption].
  - apply IH. intros j Hj. apply Hnone. now right.
Qed.

Lemma judgeFromHash_some (l : list string) (hash : Z) :
  (exists j, In j l /\ keccak256 j = hash) ->
  exists j, judgeFromHash l hash = Ok j /\ In j l /\ keccak256 j = hash.
Proof.
  induction l as [|x l IH]; intros (j & Hin & Hj); [contradiction|].
  cbn [judgeFromHash]. unfold bytes32ToUint.
  destruct (Z.eqb_spec (keccak256 x) hash) as [Heq|Hne].
  - exists x. split; [reflexivity|]. split; [now left | assumption].
  - destruct Hin as [->|Hin]; [contradiction|].
    destruct IH as (j' & Hok & Hin' & Hj'); [now exists j|].
    exists j'. split; [assumption|]. split; [now right | assumption].
Qed.

(** X14.  [decryptJudgeStats] first looks for a listed judge whose hash
    is the target recorded for the request identifier.  If no listed
    judge has that hash it reverts with the not-found error whatever the
    proof and the cleartext; if one has, the outcome is decided by the
    proof and then by the cleartext: ProofInvalid, DecodeError, or
    success with the storage unchanged. *)
Theorem decryptJudgeStats_outcomes (s : state) (r : Z) (ct pf : bytes) :
  ((forall j, In j (judgeList s) -> keccak256 j <> requestToCaseId s r) ->
   decryptJudgeStats s r ct pf = Revert NotFound) /\
  ((exists j, In j (judgeList s) /\ keccak256 j = requestToCaseId s r) ->
   decryptJudgeStats s r ct pf
   = if checkSignatures r ct pf
     then match abi_decode_uint32 ct with
          | Some _ => Ok s
          | None => Revert DecodeError
          end
     else Revert ProofInvalid).
Proof.
  unfold decryptJudgeStats, getJudgeFromHash. split.
  - intros Hnone. now rewrite judgeFromHash_none.
  - intros Hsome. apply judgeFromHash_some in Hsome as (j & -> & _).
    cbn [bind]. destruct (checkSignatures r ct pf); reflexivity.
Qed.

Lemma judgeList_step (s : state) (c : call) (j : string) :
  In j (judgeList s) -> In j (judgeList (step s c)).
Proof.
  intros Hin. unfold step. destruct (exec s c) as [s'|e] eqn:Hex; [|assumption].
  destruct c; cbn [exec] in Hex.
  - now apply submitEncryptedCase_inv in Hex as (_ & _ & _ & _ & -> & _).
  - now apply requestSentencingAnalysis_inv in Hex as (_ & _ & _ & _ & -> & _).
  - apply analyzeCase_inv in Hex
      as (c & n & j0 & _ & _ & _ & _ & _ & _ & _ & -> & _).
    destruct (isInitialized (encryptedJudgeStats s j0)); [assumption|].
    apply in_or_app. now left.
  - now apply requestJudgeStatsDecryption_inv in Hex as (_ & _ & _ & _ & -> & _).
  - apply decryptJudgeStats_inv in Hex. now subst.
Qed.

Lemma judgeList_run (cs : list call) (s : state) (j : string) :
  In j (judgeList s) -> In j (judgeList (run s cs)).
Proof.
  revert s. induction cs as [|c cs IH]; intros s Hin; [assumption|].
  change (run s (c :: cs)) with (run (step s c) cs).
  now apply IH, judgeList_step.
Qed.

Hypothesis keccak256_injective :
  forall a b, keccak256 a = keccak256 b -> a = b.

(** X15.  Request, then callback, for a judge: with [keccak256]
    collision-free, the hash recorded by [requestJudgeStatsDecryption]
    leads [getJudgeFromHash] back to the judge the request was made
    for, in every later storage, and a callback under the request
    identifier with a verifying proof and a decodable count succeeds. *)
Theorem judge_request_resolves (s s' : state) (j : string) (cs : list call)
    (ct pf : bytes) :
  reachable s ->
  requestJudgeStatsDecryption s j = Ok s' ->
  getJudgeFromHash (run s' cs) (requestToCaseId (run s' cs) (counterRequest s))
  = Ok j /\
  (checkSignatures (counterRequest s) ct pf = true ->
   abi_decode_uint32 ct <> None ->
   decryptJudgeStats (run s' cs) (counterRequest s) ct pf = Ok (run s' cs)).
Proof.
  intros Hreach Hok. apply reachable_wf in Hreach; [|assumption].
  pose proof (wf_requestJudgeStatsDecryption s s' j Hreach Hok) as Hwf'.
  apply requestJudgeStatsDecryption_inv in Hok
    as (Hini & _ & _ & _ & Hjl & Hrq & Hcr & _).
  assert (Htarget : requestToCaseId (run s' cs) (counterRequest s) = keccak256 j).
  { rewrite (issued_run abi_decode_uint256), Hrq by (try assumption; lia).
    apply upd_same. }
  assert (Hin : In j (judgeList (run s' cs))).
  { apply judgeList_run. rewrite Hjl. now apply (wf_judges s Hreach). }
  assert (Hres : getJudgeFromHash (run s' cs) (keccak256 j) = Ok j).
  { unfold getJudgeFromHash.
    destruct (judgeFromHash_some (judgeList (run s' cs)) (keccak256 j))
      as (j' & Hj' & _ & Heq); [now exists j|].
    apply keccak256_injective in Heq. now subst j'. }
  rewrite Htarget. split; [assumption|]. intros Hsig Hdec.
  unfold decryptJudgeStats. rewrite Htarget, Hres. cbn [bind].
  rewrite Hsig. cbn [require bind].
  destruct (abi_decode_uint32 ct); [reflexivity | contradiction].
Qed.

End JudgeCallback.

(** ** More on the query engine *)

Section QueryBounds.

Context {oracle : Oracle}.

Hypothesis abi_decode_uint256 :
  forall ct c n j, abi_decode_case ct = Some (c, n, j) -> 0 <= n <= MAX_UINT256.

Hypothesis keccak256_injective :
  forall a b, keccak256 a = keccak256 b -> a = b.

Lemma sum_list_between (l : list Z) (lo hi : Z) :
  (forall x, In x l -> lo <= x <= hi) ->
  Z.of_nat (List.length l) * lo <= sum_list l <= Z.of_nat (List.length l) * hi.
Proof.
  induction l as [|y l IH]; intros Hb; [cbn; lia|].
  rewrite sum_list_cons. cbn [List.length].
  assert (lo <= y <= hi) by (apply Hb; now left).
  assert (Z.of_nat (List.length l) * lo <= sum_list l
          <= Z.of_nat (List.length l) * hi)
    by (apply IH; intros x Hx; apply Hb; now right).
  lia.
Qed.

Lemma average_between (l : list Z) (lo hi : Z) :
  l <> [] -> (forall x, In x l -> lo <= x <= hi) -> lo <= average l <= hi.
Proof.
  intros Hne Hb. pose proof (sum_list_between l lo hi Hb) as Hsum.
  unfold average. destruct l as [|y l]; [contradiction|].
  set (n := Z.of_nat (List.length (y :: l))) in *.
  assert (0 < n) by (subst n; cbn [List.length]; lia).
  split.
  - apply Z.div_le_lower_bound; lia.
  - apply Z.div_le_upper_bound; lia.
Qed.

Lemma matchingJudge_incl (s : state) (chargeType j : string) (x : Z) :
  In x (matchingJudge s chargeType j) -> In x (matching s chargeType).
Proof.
  unfold matchingJudge, matching. rewrite !in_map_iff.
  intros (k & Hk & Hin). exists k. split; [assumption|].
  apply filter_In in Hin as [Hin Hm]. apply filter_In. split; [assumption|].
  unfold matchesJudge in Hm. unfold matches.
  now apply andb_true_iff in Hm as [Hm _].
Qed.

Lemma sentences_sum_le (s : state) (p q : Z -> bool) (l : list Z) :
  wf s -> (forall k, q k = true -> p k = true) ->
  sum_list (map (fun k => sentence (decryptedCases s k)) (filter q l))
  <= sum_list (map (fun k => sentence (decryptedCases s k)) (filter p l)).
Proof.
  intros Hwf Himp. induction l as [|k l IH]; [cbn; lia|].
  cbn [filter]. pose proof (wf_sentence s Hwf k) as Hk.
  destruct (q k) eqn:Hq.
  - rewrite (Himp k Hq). cbn [map]. rewrite !sum_list_cons. lia.
  - destruct (p k); [cbn [map]; rewrite sum_list_cons|]; lia.
Qed.

Lemma matchingJudge_sum_le (s : state) (chargeType j : string) :
  wf s ->
  sum_list (matchingJudge s chargeType j) <= sum_list (matching s chargeType).
Proof.
  intros Hwf. unfold matchingJudge, matching. apply sentences_sum_le; [assumption|].
  intros k Hm. unfold matchesJudge in Hm. unfold matches.
  now apply andb_true_iff in Hm as [Hm _].
Qed.

(** X16.  When at least one analyzed case matches the charge and the
    checked arithmetic stays in range, the three values returned by
    [calculateSentencingStats] are ordered, min <= avg <= max, and all
    three are uint256 values. *)
Theorem calculateSentencingStats_ordered (s : state) (chargeType : string) :
  reachable s ->
  caseCount s < MAX_UINT256 ->
  sum_list (matching s chargeType) <= MAX_UINT256 ->
  matching s chargeType <> [] ->
  exists avgSentence minSentence maxSentence,
    calculateSentencingStats s chargeType
    = Ok (avgSentence, minSentence, maxSentence) /\
    0 <= minSentence <= avgSentence /\
    avgSentence <= maxSentence <= MAX_UINT256.
Proof.
  intros Hreach Hcc Hsum Hne. apply reachable_wf in Hreach; [|assumption].
  assert (Hrange : forall x, In x (matching s chargeType) -> 0 <= x <= MAX_UINT256).
  { intros x Hx. apply in_map_iff in Hx as (k & <- & _).
    apply (wf_sentence s Hreach). }
  destruct (fold_min_is_min (matching s chargeType) MAX_UINT256 Hne)
    as [Hmin_in Hmin]; [intros x Hx; now apply Hrange|].
  destruct (fold_max_is_max (matching s chargeType) 0 Hne)
    as [Hmax_in Hmax]; [intros x Hx; now apply Hrange|].
  eexists _, _, _. split;
    [now apply (calculateSentencingStats_scan keccak256_injective)|].
  pose proof (Hrange _ Hmin_in). pose proof (Hrange _ Hmax_in).
  pose proof (average_between (matching s chargeType) _ _ Hne
                (fun x Hx => conj (Hmin x Hx) (Hmax x Hx))).
  lia.
Qed.

(** X17.  The average that [detectSentencingDisparities] reports for a
    judge with at least one matching case lies between the minimum and
    the maximum that [calculateSentencingStats] reports for the same
    charge. *)
Theorem disparity_within_charge_range (s : state) (chargeType j : string) :
  reachable s ->
  caseCount s < MAX_UINT256 ->
  sum_list (matching s chargeType) <= MAX_UINT256 ->
  matchingJudge s chargeType j <> [] ->
  exists avgSentence minSentence maxSentence judgeAvg,
    calculateSentencingStats s chargeType
    = Ok (avgSentence, minSentence, maxSentence) /\
    detectSentencingDisparities s chargeType [j] = Ok ([j], [judgeAvg]) /\
    minSentence <= judgeAvg <= maxSentence.
Proof.
  intros Hreach Hcc Hsum Hne. apply reachable_wf in Hreach; [|assumption].
  assert (Hne' : matching s chargeType <> []).
  { destruct (matchingJudge s chargeType j) as [|x l] eqn:Hl; [contradiction|].
    intros Hnil. assert (Hx : In x (matching s chargeType)).
    { apply (matchingJudge_incl s chargeType j). rewrite Hl. now left. }
    rewrite Hnil in Hx. contradiction. }
  assert (Hrange : forall x, In x (matching s chargeType) -> 0 <= x <= MAX_UINT256).
  { intros x Hx. apply in_map_iff in Hx as (k & <- & _).
    apply (wf_sentence s Hreach). }
  destruct (fold_min_is_min (matching s chargeType) MAX_UINT256 Hne')
    as [_ Hmin]; [intros x Hx; now apply Hrange|].
  destruct (fold_max_is_max (matching s chargeType) 0 Hne')
    as [_ Hmax]; [intros x Hx; now apply Hrange|].
  eexists _, _, _, _. split;
    [now apply (calculateSentencingStats_scan keccak256_injective)|].
  split.
  - unfold detectSentencingDisparities.
    apply (disparity_outer_loop keccak256_injective s Hreach chargeType [j]
             Hcc) with (rest := [j]) (pre := []); [|reflexivity].
    intros j' [<-|[]]. pose proof (matchingJudge_sum_le s chargeType j Hreach). lia.
  - apply average_between; [assumption|].
    intros x Hx. apply matchingJudge_incl in Hx. split; [now apply Hmin | now apply Hmax].
Qed.



End QueryBounds.

(** ** How the statistics change *)

Section QueryUpdates.

Context {oracle : Oracle}.

Hypothesis abi_decode_uint256 :
  forall ct c n j, abi_decode_case ct = Some (c, n, j) -> 0 <= n <= MAX_UINT256.

Hypothesis keccak256_injective :
  forall a b, keccak256 a = keccak256 b -> a = b.

Lemma select_ext (p p' : Z -> bool) (f f' : Z -> Z) (l : list Z) :
  (forall x, In x l -> p' x = p x /\ (p x = true -> f' x = f x)) ->
  map f' (filter p' l) = map f (filter p l).
Proof.
  induction l as [|x l IH]; intros Hext; [reflexivity|].
  cbn [filter]. destruct (Hext x) as [Hp Hf]; [now left|]. rewrite Hp.
  assert (Hrest : map f' (filter p' l) = map f (filter p l))
    by (apply IH; intros y Hy; apply Hext; now right).
  destruct (p x); [cbn [map]; now rewrite Hf, Hrest | assumption].
Qed.

(** Setting the flag of one identifier of a run inserts its value into
    the selected values and leaves the others in place. *)
Lemma select_flag_split (p p' : Z -> bool) (f f' : Z -> Z) (k : Z) :
  p k = false -> p' k = true ->
  (forall x, x <> k -> p' x = p x /\ f' x = f x) ->
  forall (n : nat) (i : Z),
    i <= k < i + Z.of_nat n ->
    exists l1 l2,
      map f (filter p (Zseq i n)) = (l1 ++ l2)%list /\
      map f' (filter p' (Zseq i n)) = (l1 ++ f' k :: l2)%list.
Proof.
  intros Hk Hk' Hext n. induction n as [|n IH]; intros i Hin; [lia|].
  cbn [Zseq filter].
  destruct (Z.eq_dec i k) as [->|Hne].
  - rewrite Hk, Hk'. exists [], (map f (filter p (Zseq (k + 1) n))).
    split; [reflexivity|]. cbn [map app]. f_equal.
    apply select_ext. intros x Hx. apply Zseq_In in Hx.
    destruct (Hext x) as [Hp Hf]; [lia | now split].
  - destruct (Hext i Hne) as [Hp Hf]. rewrite Hp.
    destruct (IH (i + 1)) as (l1 & l2 & H1 & H2); [lia|].
    destruct (p i).
    + exists (f i :: l1), l2. cbn [map app]. now rewrite H1, H2, Hf.
    + now exists l1, l2.
Qed.

Lemma fold_min_init (l : list Z) (a b : Z) :
  fold_left Z.min l (Z.min a b) = Z.min (fold_left Z.min l a) b.
Proof.
  revert a. induction l as [|y l IH]; intros a; [reflexivity|].
  cbn [fold_left]. rewrite <- IH. f_equal. lia.
Qed.

Lemma fold_max_init (l : list Z) (a b : Z) :
  fold_left Z.max l (Z.max a b) = Z.max (fold_left Z.max l a) b.
Proof.
  revert a. induction l as [|y l IH]; intros a; [reflexivity|].
  cbn [fold_left]. rewrite <- IH. f_equal. lia.
Qed.

Lemma fold_min_insert (l1 l2 : list Z) (a n : Z) :
  fold_left Z.min (l1 ++ n :: l2) a = Z.min (fold_left Z.min (l1 ++ l2) a) n.
Proof. rewrite !fold_left_app. cbn [fold_left]. apply fold_min_init. Qed.

Lemma fold_max_insert (l1 l2 : list Z) (a n : Z) :
  fold_left Z.max (l1 ++ n :: l2) a = Z.max (fold_left Z.max (l1 ++ l2) a) n.
Proof. rewrite !fold_left_app. cbn [fold_left]. apply fold_max_init. Qed.

Lemma average_insert (l1 l2 : list Z) (n : Z) :
  average (l1 ++ n :: l2)
  = (sum_list (l1 ++ l2) + n) / (Z.of_nat (List.length (l1 ++ l2)) + 1).
Proof.
  unfold average. destruct (l1 ++ n :: l2)%list as [|y l] eqn:Hl.
  - destruct l1; discriminate.
  - rewrite <- Hl, !sum_list_app, sum_list_cons, !length_app. cbn [List.length].
    f_equal; lia.
Qed.

(** The matching sentences are read off the projections of the
    submitted cases only. *)
Lemma matching_ext (s s' : state) (chargeType : string) :
  caseCount s' = caseCount s ->
  (forall k, 1 <= k <= caseCount s -> decryptedCases s' k = decryptedCases s k) ->
  matching s' chargeType = matching s chargeType /\
  forall j, matchingJudge s' chargeType j = matchingJudge s chargeType j.
Proof.
  intros Hcc Hdc. unfold matching, matchingJudge, caseIds. rewrite Hcc.
  split; [|intros j]; apply select_ext; intros k Hk; apply Zseq_In in Hk;
    unfold matches, matchesJudge; rewrite Hdc by lia; now split.
Qed.

Lemma matching_frame (s : state) (c : call) (chargeType : string) :
  wf s -> finalizedBy s c = [] ->
  matching (step s c) chargeType = matching s chargeType /\
  forall j, matchingJudge (step s c) chargeType j = matchingJudge s chargeType j.
Proof.
  intros Hwf Hnone. pose proof (wf_caseCount s Hwf) as Hcc0. unfold step.
  destruct (exec s c) as [s'|e] eqn:Hex; [|now split].
  destruct c; cbn [exec] in Hex.
  - apply submitEncryptedCase_inv in Hex as (_ & Hcc & Hdc & _).
    unfold matching, matchingJudge, caseIds. rewrite Hcc.
    replace (Z.to_nat (caseCount s + 1)) with (S (Z.to_nat (caseCount s))) by lia.
    rewrite Zseq_snoc, Z2Nat.id by lia.
    assert (Hnew : isAnalyzed (decryptedCases s' (1 + caseCount s)) = false)
      by now rewrite Hdc, Z.add_comm, upd_same.
    assert (Hm : matches s' chargeType (1 + caseCount s) = false)
      by (unfold matches; now rewrite Hnew).
    assert (Hmj : forall j, matchesJudge s' chargeType j (1 + caseCount s) = false)
      by (intros j; unfold matchesJudge; now rewrite Hnew).
    split; [|intros j]; rewrite filter_app; cbn [filter];
      rewrite ?Hm, ?Hmj, app_nil_r; apply select_ext; intros k Hk;
      apply Zseq_In in Hk; unfold matches, matchesJudge;
      rewrite Hdc, upd_other by lia; now split.
  - apply requestSentencingAnalysis_inv in Hex as (_ & Hcc & Hdc & _).
    apply matching_ext; [assumption | now rewrite Hdc].
  - pose proof Hex as Hinv.
    apply analyzeCase_inv in Hinv as (c & n & j & _ & _ & _ & Hd & _).
    rewrite (finalizedBy_analyzeCase s s' requestId cleartexts proof c n j Hex Hd)
      in Hnone.
    discriminate.
  - apply requestJudgeStatsDecryption_inv in Hex as (_ & Hcc & Hdc & _).
    apply matching_ext; [assumption | now rewrite Hdc].
  - apply decryptJudgeStats_inv in Hex. now subst.
Qed.

(** X19.  Only a finalization changes the statistics: after a call that
    finalizes no case (a submission, a request, a judge-statistics call,
    a reverted callback) both queries return what they returned before.
    The arithmetic is assumed in range in the storage after the call. *)
Theorem statistics_change_only_on_finalization (s : state) (c : call)
    (chargeType : string) (judgeIds : list string) :
  reachable s ->
  finalizedBy s c = [] ->
  caseCount (step s c) < MAX_UINT256 ->
  sum_list (matching s chargeType) <= MAX_UINT256 ->
  calculateSentencingStats (step s c) chargeType
  = calculateSentencingStats s chargeType /\
  detectSentencingDisparities (step s c) chargeType judgeIds
  = detectSentencingDisparities s chargeType judgeIds.
Proof.
  intros Hreach Hnone Hcc Hsum. apply reachable_wf in Hreach; [|assumption].
  pose proof (wf_step abi_decode_uint256 s c Hreach) as Hwf'.
  pose proof (caseCount_step s c) as Hmono.
  destruct (matching_frame s c chargeType Hreach Hnone) as [Hm Hmj].
  split.
  - rewrite !(calculateSentencingStats_scan keccak256_injective);
      try assumption; try lia; rewrite ?Hm; try assumption; reflexivity.
  - unfold detectSentencingDisparities. etransitivity; [|symmetry].
    + apply (disparity_outer_loop keccak256_injective (step s c) Hwf' chargeType
               judgeIds Hcc) with (rest := judgeIds) (pre := []); [|reflexivity].
      intros j _. rewrite Hmj.
      pose proof (matchingJudge_sum_le s chargeType j Hreach). lia.
    + etransitivity.
      * apply (disparity_outer_loop keccak256_injective s Hreach chargeType
                 judgeIds) with (rest := judgeIds) (pre := []);
          [lia | | reflexivity].
        intros j _. pose proof (matchingJudge_sum_le s chargeType j Hreach). lia.
      * do 2 f_equal. apply map_ext. intros j. now rewrite Hmj.
Qed.

(** X20.  Finalizing a submitted case with charge [c] and sentence [n]
    adds exactly that sentence to the statistics of [c]: if the query
    gave minimum m and maximum M before, it now gives
    floor((S + n) / (N + 1)), min(m, n) and max(M, n), where S and N are
    the sum and the number of the sentences that matched before.  The
    statistics of every other charge stay as they were. *)
Theorem finalization_adds_sentence (s s' : state) (r : Z) (ct pf : bytes)
    (c : string) (n : Z) (j : string) :
  reachable s ->
  analyzeCase s r ct pf = Ok s' ->
  abi_decode_case ct = Some (c, n, j) ->
  1 <= requestToCaseId s r <= caseCount s ->
  caseCount s < MAX_UINT256 ->
  sum_list (matching s c) + n <= MAX_UINT256 ->
  (exists avgSentence minSentence maxSentence,
     calculateSentencingStats s c = Ok (avgSentence, minSentence, maxSentence) /\
     calculateSentencingStats s' c
     = Ok ((sum_list (matching s c) + n)
           / (Z.of_nat (List.length (matching s c)) + 1),
           Z.min minSentence n, Z.max maxSentence n)) /\
  (forall chargeType,
     chargeType <> c ->
     sum_list (matching s chargeType) <= MAX_UINT256 ->
     calculateSentencingStats s' chargeType
     = calculateSentencingStats s chargeType).
Proof.
  intros Hreach Hok Hdec Hsub Hcc Hsum. apply reachable_wf in Hreach; [|assumption].
  pose proof (wf_analyzeCase abi_decode_uint256 s s' r ct pf Hreach Hok) as Hwf'.
  apply analyzeCase_inv in Hok
    as (c0 & n0 & j0 & _ & Hun & _ & Hdec' & Hcc' & Hdc & _).
  rewrite Hdec in Hdec'. inversion Hdec'; subst c0 n0 j0. clear Hdec'.
  pose proof (abi_decode_uint256 ct c n j Hdec) as Hn.
  set (k := requestToCaseId s r) in *.
  split.
  - destruct (select_flag_split (matches s c) (matches s' c)
                (fun x => sentence (decryptedCases s x))
                (fun x => sentence (decryptedCases s' x)) k)
      with (n := Z.to_nat (caseCount s)) (i := 1)
      as (l1 & l2 & H1 & H2).
    + unfold matches. now rewrite Hun.
    + unfold matches. rewrite Hdc, upd_same. cbn. now rewrite String.eqb_refl.
    + intros x Hx. unfold matches. rewrite Hdc, upd_other by assumption. now split.
    + lia.
    + fold (caseIds s) in H1, H2. fold (matching s c) in H1.
      rewrite Hdc, upd_same in H2. cbn [sentence] in H2.
      assert (Hm' : matching s' c = (l1 ++ n :: l2)%list).
      { unfold matching, caseIds. rewrite Hcc'. exact H2. }
      eexists _, _, _. split.
      * apply (calculateSentencingStats_scan keccak256_injective);
          [assumption | assumption | lia].
      * rewrite (calculateSentencingStats_scan keccak256_injective);
          [| assumption | lia |].
        -- rewrite Hm', average_insert, fold_min_insert, fold_max_insert, <- H1.
           reflexivity.
        -- rewrite Hm', sum_list_app, sum_list_cons.
           rewrite H1, sum_list_app in Hsum. lia.
  - intros chargeType Hne Hsum'.
    assert (Hm : matching s' chargeType = matching s chargeType).
    { unfold matching, caseIds. rewrite Hcc'. apply select_ext.
      intros x _. unfold matches. rewrite Hdc. unfold upd.
      destruct (Z.eqb_spec x k) as [->|_]; [|now split].
      rewrite Hun. cbn. split; [|discriminate].
      destruct (String.eqb_spec c chargeType); [congruence | reflexivity]. }
    rewrite !(calculateSentencingStats_scan keccak256_injective);
      try assumption; try lia; rewrite ?Hm; try assumption; reflexivity.
Qed.

End QueryUpdates.

(** ** The further properties on the scenarios *)

Lemma theft_state_reachable : reachable (oracle := Mock.oracle) Mock.theft_state.
Proof. exists Mock.theft_trace. reflexivity. Qed.

Lemma pending_state_reachable :
  reachable (oracle := Mock.oracle) Mock.pending_state.
Proof. exists Mock.pending_trace. reflexivity. Qed.

Lemma encryptedCases_immutable_witness :
  let later :=
    run (oracle := Mock.oracle) Mock.pending_state
      [ @AnalyzeCase Mock.oracle 1 (Mock.CasePlain "Theft" 20 "A")
          (Mock.Signature true);
        SubmitEncryptedCase 103 (Mock.h 2) (Mock.h 5) (Mock.h 9) ] in
  1 <= 2 <= caseCount Mock.pending_state /\
  encryptedCases later 2 = encryptedCases Mock.pending_state 2.
Proof.
  intros later.
  assert (Hk : 1 <= 2 <= caseCount Mock.pending_state)
    by (vm_compute; split; discriminate).
  split; [exact Hk|].
  exact (@encryptedCases_immutable Mock.oracle Mock.pending_state
           [ @AnalyzeCase Mock.oracle 1 (Mock.CasePlain "Theft" 20 "A")
               (Mock.Signature true);
             SubmitEncryptedCase 103 (Mock.h 2) (Mock.h 5) (Mock.h 9) ]
           2 Hk).
Defined.

Lemma encryptedCases_sequential_witness :
  id (encryptedCases (run (oracle := Mock.oracle) init Mock.theft_trace) 2) = 2 /\
  encryptedCases (run (oracle := Mock.oracle) init Mock.theft_trace) 4
  = zeroEncryptedCase.
Proof.
  split.
  - apply (@encryptedCases_sequential Mock.oracle mock_abi_decode_uint256
             Mock.theft_trace 2).
    vm_compute. split; discriminate.
  - apply (@encryptedCases_sequential Mock.oracle mock_abi_decode_uint256
             Mock.theft_trace 4).
    right. vm_compute. reflexivity.
Defined.

Lemma caseSubmitted_events_witness :
  caseIds (run (oracle := Mock.oracle) init Mock.theft_trace) = [1; 2; 3] /\
  submittedIds (events (run (oracle := Mock.oracle) init Mock.theft_trace))
  = caseIds (run (oracle := Mock.oracle) init Mock.theft_trace).
Proof.
  split; [vm_compute; reflexivity|].
  exact (@caseSubmitted_events Mock.oracle mock_abi_decode_uint256
           Mock.theft_trace).
Defined.

Lemma accumulators_count_CaseAnalyzed_events_witness :
  analyzedIds (events (run (oracle := Mock.oracle) init Mock.theft_trace))
  = [1; 2; 3] /\
  judgeStatsTotal (run (oracle := Mock.oracle) init Mock.theft_trace)
  = Z.of_nat
      (List.length
         (analyzedIds
            (events (run (oracle := Mock.oracle) init Mock.theft_trace)))).
Proof.
  split; [vm_compute; reflexivity|].
  exact (@accumulators_count_CaseAnalyzed_events Mock.oracle
           mock_abi_decode_uint256 Mock.theft_trace).
Defined.

Lemma getEncryptedJudgeStats_counts_citations_witness :
  finalizedJudges (oracle := Mock.oracle) init Mock.theft_trace
  = ["A"; "A"; "B"]%string /\
  decrypt
    (getEncryptedJudgeStats (run (oracle := Mock.oracle) init Mock.theft_trace)
       "A")
  = Z.of_nat
      (count_occ string_dec
         (finalizedJudges (oracle := Mock.oracle) init Mock.theft_trace)
         "A"%string).
Proof.
  split; [vm_compute; reflexivity|].
  exact (proj1 (@getEncryptedJudgeStats_counts_citations Mock.oracle
                  mock_abi_decode_uint256 Mock.theft_trace "A")).
Defined.

Lemma judgeList_first_citations_witness :
  firstSeen (finalizedJudges (oracle := Mock.oracle) init Mock.theft_trace)
  = ["A"; "B"]%string /\
  judgeList (run (oracle := Mock.oracle) init Mock.theft_trace)
  = firstSeen (finalizedJudges (oracle := Mock.oracle) init Mock.theft_trace).
Proof.
  split; [vm_compute; reflexivity|].
  exact (@judgeList_first_citations Mock.oracle mock_abi_decode_uint256
           Mock.theft_trace).
Defined.

Lemma analyzedCount_le_accumulators_witness :
  analyzedCount
    (run (oracle := Mock.oracle) init
       (Mock.unsubmitted_trace
        ++ [SubmitEncryptedCase 100 (Mock.h 1) (Mock.h 10) (Mock.h 7)]))
  <= judgeStatsTotal
       (run (oracle := Mock.oracle) init
          (Mock.unsubmitted_trace
           ++ [SubmitEncryptedCase 100 (Mock.h 1) (Mock.h 10) (Mock.h 7)])).
Proof.
  exact (@analyzedCount_le_accumulators Mock.oracle mock_abi_decode_uint256 _).
Defined.

Lemma projection_wellformed_witness :
  isAnalyzed
    (decryptedCases (run (oracle := Mock.oracle) init Mock.theft_trace) 3)
  = true /\
  In (judgeId
        (decryptedCases (run (oracle := Mock.oracle) init Mock.theft_trace) 3))
    (judgeList (run (oracle := Mock.oracle) init Mock.theft_trace)).
Proof.
  destruct (@projection_wellformed Mock.oracle mock_abi_decode_uint256
              Mock.theft_trace 3) as [Hempty|(Han & _ & Hin & _)].
  - exfalso. vm_compute in Hempty. discriminate Hempty.
  - split; [exact Han | exact Hin].
Defined.

Lemma analyzeCase_unissued_request_witness :
  counterRequest Mock.theft_state <= 7 /\
  @analyzeCase Mock.oracle Mock.theft_state 7 (Mock.CasePlain "Theft" 10 "A")
    (Mock.Signature true)
  = Revert InvalidRequest.
Proof.
  assert (Hr : counterRequest Mock.theft_state <= 7) by (vm_compute; discriminate).
  split; [exact Hr|].
  exact (@analyzeCase_unissued_request Mock.oracle mock_abi_decode_uint256
           Mock.theft_state 7 _ _ theft_state_reachable (or_intror Hr)).
Defined.

Lemma unknown_case_request_refused_witness :
  (4 < 1 \/ caseCount Mock.theft_state < 4) /\
  requestSentencingAnalysis Mock.theft_state 4 = Revert MalformedHandle /\
  step (oracle := Mock.oracle) Mock.theft_state (RequestSentencingAnalysis 4)
  = Mock.theft_state.
Proof.
  assert (Hk : 4 < 1 \/ caseCount Mock.theft_state < 4)
    by (right; vm_compute; reflexivity).
  destruct (@unknown_case_request_refused Mock.oracle mock_abi_decode_uint256
              Mock.theft_state 4 theft_state_reachable Hk)
    as (Hreq & Hstep & _).
  split; [exact Hk|].
  split; [rewrite Hreq; vm_compute; reflexivity | exact Hstep].
Defined.

Lemma analyzed_case_rejects_every_callback_witness :
  let twice :=
    run (oracle := Mock.oracle) init
      [ SubmitEncryptedCase 100 (Mock.h 1) (Mock.h 10) (Mock.h 7);
        RequestSentencingAnalysis 1;
        RequestSentencingAnalysis 1;
        @AnalyzeCase Mock.oracle 0 (Mock.CasePlain "Theft" 10 "A")
          (Mock.Signature true) ] in
  let later :=
    run (oracle := Mock.oracle) twice
      [SubmitEncryptedCase 101 (Mock.h 1) (Mock.h 20) (Mock.h 7)] in
  1 <= caseCount twice /\
  isAnalyzed (decryptedCases twice 1) = true /\
  requestToCaseId later 1 = 1 /\
  @analyzeCase Mock.oracle later 1 (Mock.CasePlain "Theft" 10 "A")
    (Mock.Signature true)
  = Revert AlreadyAnalyzed.
Proof.
  intros twice later.
  assert (Hreach : reachable (oracle := Mock.oracle) twice)
    by (eexists; reflexivity).
  assert (Hk : 1 <= caseCount twice) by (vm_compute; discriminate).
  assert (Han : isAnalyzed (decryptedCases twice 1) = true)
    by (vm_compute; reflexivity).
  assert (Hr : requestToCaseId later 1 = 1) by (vm_compute; reflexivity).
  split; [exact Hk|]. split; [exact Han|]. split; [exact Hr|].
  exact (@analyzed_case_rejects_every_callback Mock.oracle
           mock_abi_decode_uint256 twice 1
           [SubmitEncryptedCase 101 (Mock.h 1) (Mock.h 20) (Mock.h 7)] 1
           (Mock.CasePlain "Theft" 10 "A") (Mock.Signature true)
           Hreach Hk Han Hr).
Defined.

Lemma analyzed_projection_immutable_witness :
  let later :=
    run (oracle := Mock.oracle) Mock.theft_state
      [ RequestJudgeStatsDecryption "A";
        SubmitEncryptedCase 103 (Mock.h 2) (Mock.h 5) (Mock.h 9);
        @AnalyzeCase Mock.oracle 0 (Mock.CasePlain "Fraud" 99 "B")
          (Mock.Signature true) ] in
  1 <= 1 <= caseCount Mock.theft_state /\
  isAnalyzed (decryptedCases Mock.theft_state 1) = true /\
  getDecryptedCase later 1 = getDecryptedCase Mock.theft_state 1.
Proof.
  intros later.
  assert (Hk : 1 <= 1 <= caseCount Mock.theft_state)
    by (vm_compute; split; discriminate).
  assert (Han : isAnalyzed (decryptedCases Mock.theft_state 1) = true)
    by (vm_compute; reflexivity).
  split; [exact Hk|]. split; [exact Han|].
  exact (@analyzed_projection_immutable Mock.oracle Mock.theft_state
           [ RequestJudgeStatsDecryption "A";
             SubmitEncryptedCase 103 (Mock.h 2) (Mock.h 5) (Mock.h 9);
             @AnalyzeCase Mock.oracle 0 (Mock.CasePlain "Fraud" 99 "B")
               (Mock.Signature true) ]
           1 Hk Han).
Defined.

Lemma pending_request_finalizes_witness :
  let submitted :=
    run (oracle := Mock.oracle) init
      [SubmitEncryptedCase 100 (Mock.h 1) (Mock.h 10) (Mock.h 7)] in
  let requested :=
    step (oracle := Mock.oracle) submitted (RequestSentencingAnalysis 1) in
  let later :=
    [ SubmitEncryptedCase 101 (Mock.h 1) (Mock.h 20) (Mock.h 7);
      @RequestSentencingAnalysis Mock.oracle 2 ] in
  requestSentencingAnalysis submitted 1 = Ok requested /\
  isAnalyzed (decryptedCases (run (oracle := Mock.oracle) requested later) 1)
  = false /\
  exists s'',
    @analyzeCase Mock.oracle (run (oracle := Mock.oracle) requested later)
      (counterRequest submitted)
      (Mock.CasePlain "Theft" 10 "A") (Mock.Signature true)
    = Ok s'' /\
    getDecryptedCase s'' 1 = ("Theft", 10, "A", true)%string.
Proof.
  intros submitted requested later.
  assert (Hreach : reachable (oracle := Mock.oracle) submitted)
    by (eexists; reflexivity).
  assert (Hk : 1 <> 0) by discriminate.
  assert (Hok : requestSentencingAnalysis submitted 1 = Ok requested)
    by (vm_compute; reflexivity).
  assert (Hun : isAnalyzed
                  (decryptedCases (run (oracle := Mock.oracle) requested later) 1)
                = false)
    by (vm_compute; reflexivity).
  assert (Hsig : @checkSignatures Mock.oracle (counterRequest submitted)
                   (Mock.CasePlain "Theft" 10 "A") (Mock.Signature true) = true)
    by reflexivity.
  assert (Hdec : @abi_decode_case Mock.oracle (Mock.CasePlain "Theft" 10 "A")
                 = Some ("Theft", 10, "A")%string)
    by (vm_compute; reflexivity).
  destruct (@pending_request_finalizes Mock.oracle mock_abi_decode_uint256
              submitted requested 1 later _ _ _ _ _ Hreach Hk Hok Hun Hsig Hdec)
    as (s'' & Hfin & Hget & _).
  split; [exact Hok|]. split; [exact Hun|].
  exists s''. split; [exact Hfin | exact Hget].
Defined.

Lemma decryptJudgeStats_outcomes_witness :
  @decryptJudgeStats Mock.oracle init 0 (Mock.CountPlain 2) (Mock.Signature true)
  = Revert NotFound /\
  @decryptJudgeStats Mock.oracle Mock.stats_requested_state 3 (Mock.CountPlain 2)
    (Mock.Signature false)
  = Revert ProofInvalid.
Proof.
  split.
  - apply (@decryptJudgeStats_outcomes Mock.oracle init 0).
    intros j [].
  - rewrite (proj2 (@decryptJudgeStats_outcomes Mock.oracle
                      Mock.stats_requested_state 3 (Mock.CountPlain 2)
                      (Mock.Signature false))); [reflexivity|].
    exists "A"%string. split; vm_compute; [now left | reflexivity].
Defined.

Lemma judge_request_resolves_witness :
  let later :=
    run (oracle := Mock.oracle) Mock.stats_requested_state
      [SubmitEncryptedCase 103 (Mock.h 2) (Mock.h 5) (Mock.h 9)] in
  requestJudgeStatsDecryption (oracle := Mock.oracle) Mock.theft_state "A"
  = Ok Mock.stats_requested_state /\
  counterRequest Mock.theft_state = 3 /\
  @getJudgeFromHash Mock.oracle later
    (requestToCaseId later (counterRequest Mock.theft_state))
  = Ok "A"%string /\
  @decryptJudgeStats Mock.oracle later (counterRequest Mock.theft_state)
    (Mock.CountPlain 2) (Mock.Signature true)
  = Ok later.
Proof.
  intros later.
  assert (Hok : requestJudgeStatsDecryption (oracle := Mock.oracle)
                  Mock.theft_state "A" = Ok Mock.stats_requested_state)
    by (vm_compute; reflexivity).
  destruct (@judge_request_resolves Mock.oracle mock_abi_decode_uint256
              mock_keccak256_injective Mock.theft_state
              Mock.stats_requested_state "A"
              [SubmitEncryptedCase 103 (Mock.h 2) (Mock.h 5) (Mock.h 9)]
              (Mock.CountPlain 2) (Mock.Signature true)
              theft_state_reachable Hok)
    as [Hres Hcall].
  split; [exact Hok|]. split; [vm_compute; reflexivity|].
  split; [exact Hres|].
  apply Hcall; [reflexivity | discriminate].
Defined.

Lemma calculateSentencingStats_ordered_witness :
  caseCount Mock.theft_state < MAX_UINT256 /\
  sum_list (matching Mock.theft_state "Theft") <= MAX_UINT256 /\
  matching Mock.theft_state "Theft" <> [] /\
  exists avgSentence minSentence maxSentence,
    @calculateSentencingStats Mock.oracle Mock.theft_state "Theft"
    = Ok (avgSentence, minSentence, maxSentence) /\
    0 <= minSentence <= avgSentence /\
    avgSentence <= maxSentence <= MAX_UINT256.
Proof.
  assert (Hcc : caseCount Mock.theft_state < MAX_UINT256)
    by (vm_compute; reflexivity).
  assert (Hsum : sum_list (matching Mock.theft_state "Theft") <= MAX_UINT256)
    by (vm_compute; discriminate).
  assert (Hne : matching Mock.theft_state "Theft" <> [])
    by (vm_compute; discriminate).
  split; [exact Hcc|]. split; [exact Hsum|]. split; [exact Hne|].
  exact (@calculateSentencingStats_ordered Mock.oracle mock_abi_decode_uint256
           mock_keccak256_injective Mock.theft_state "Theft"
           theft_state_reachable Hcc Hsum Hne).
Defined.

Lemma disparity_within_charge_range_witness :
  matchingJudge Mock.theft_state "Theft" "A" <> [] /\
  exists avgSentence minSentence maxSentence judgeAvg,
    @calculateSentencingStats Mock.oracle Mock.theft_state "Theft"
    = Ok (avgSentence, minSentence, maxSentence) /\
    @detectSentencingDisparities Mock.oracle Mock.theft_state "Theft"
      ["A"%string]
    = Ok (["A"%string], [judgeAvg]) /\
    minSentence <= judgeAvg <= maxSentence.
Proof.
  assert (Hcc : caseCount Mock.theft_state < MAX_UINT256)
    by (vm_compute; reflexivity).
  assert (Hsum : sum_list (matching Mock.theft_state "Theft") <= MAX_UINT256)
    by (vm_compute; discriminate).
  assert (Hne : matchingJudge Mock.theft_state "Theft" "A" <> [])
    by (vm_compute; discriminate).
  split; [exact Hne|].
  exact (@disparity_within_charge_range Mock.oracle mock_abi_decode_uint256
           mock_keccak256_injective Mock.theft_state "Theft" "A"
           theft_state_reachable Hcc Hsum Hne).
Defined.


Lemma statistics_change_only_on_finalization_witness :
  let submission :=
    @SubmitEncryptedCase Mock.oracle 103 (Mock.h 2) (Mock.h 5) (Mock.h 9) in
  finalizedBy Mock.theft_state submission = [] /\
  caseCount (step Mock.theft_state submission) = 4 /\
  @calculateSentencingStats Mock.oracle (step Mock.theft_state submission)
    "Theft"
  = @calculateSentencingStats Mock.oracle Mock.theft_state "Theft".
Proof.
  intros submission.
  assert (Hnone : finalizedBy Mock.theft_state submission = []) by reflexivity.
  assert (Hcc : caseCount (step Mock.theft_state submission) < MAX_UINT256)
    by (vm_compute; reflexivity).
  assert (Hsum : sum_list (matching Mock.theft_state "Theft") <= MAX_UINT256)
    by (vm_compute; discriminate).
  split; [exact Hnone|]. split; [vm_compute; reflexivity|].
  exact (proj1 (@statistics_change_only_on_finalization Mock.oracle
                  mock_abi_decode_uint256 mock_keccak256_injective
                  Mock.theft_state submission "Theft" []
                  theft_state_reachable Hnone Hcc Hsum)).
Defined.

Lemma finalization_adds_sentence_witness :
  let before :=
    run (oracle := Mock.oracle) Mock.pending_state
      [ @AnalyzeCase Mock.oracle 0 (Mock.CasePlain "Theft" 10 "A")
          (Mock.Signature true) ] in
  let after :=
    step (oracle := Mock.oracle) before
      (@AnalyzeCase Mock.oracle 2 (Mock.CasePlain "Theft" 30 "B")
         (Mock.Signature true)) in
  @analyzeCase Mock.oracle before 2 (Mock.CasePlain "Theft" 30 "B")
    (Mock.Signature true) = Ok after /\
  1 <= requestToCaseId before 2 <= caseCount before /\
  exists avgSentence minSentence maxSentence,
    @calculateSentencingStats Mock.oracle before "Theft"
    = Ok (avgSentence, minSentence, maxSentence) /\
    @calculateSentencingStats Mock.oracle after "Theft"
    = Ok ((sum_list (matching before "Theft") + 30)
          / (Z.of_nat (List.length (matching before "Theft")) + 1),
          Z.min minSentence 30, Z.max maxSentence 30).
Proof.
  intros before after.
  assert (Hreach : reachable (oracle := Mock.oracle) before).
  { exists (Mock.pending_trace
            ++ [ @AnalyzeCase Mock.oracle 0 (Mock.CasePlain "Theft" 10 "A")
                   (Mock.Signature true) ])%list.
    vm_compute. reflexivity. }
  assert (Hok : @analyzeCase Mock.oracle before 2 (Mock.CasePlain "Theft" 30 "B")
                  (Mock.Signature true) = Ok after)
    by (vm_compute; reflexivity).
  assert (Hdec : @abi_decode_case Mock.oracle (Mock.CasePlain "Theft" 30 "B")
                 = Some ("Theft", 30, "B")%string)
    by (vm_compute; reflexivity).
  assert (Hsub : 1 <= requestToCaseId before 2 <= caseCount before)
    by (vm_compute; split; discriminate).
  assert (Hcc : caseCount before < MAX_UINT256) by (vm_compute; reflexivity).
  assert (Hsum : sum_list (matching before "Theft") + 30 <= MAX_UINT256)
    by (vm_compute; discriminate).
  split; [exact Hok|]. split; [exact Hsub|].
  exact (proj1 (@finalization_adds_sentence Mock.oracle mock_abi_decode_uint256
                  mock_keccak256_injective before after 2 _ _ _ _ _
                  Hreach Hok Hdec Hsub Hcc Hsum)).
Defined.
